(** * Duplicate image finder: a shallow embedding of duplicate_finder.py

    The development follows the source file top to bottom: the union-find
    helper [DisjointSet], the background worker [DuplicateFinderWorker],
    the consumer side of [DuplicateFinderApp] (everything except widgets),
    and the module-level functions [find_image_files] and [compute_hashes].

    Paths are strings.  Python dictionaries whose iteration order matters
    are association lists in insertion order; the two dictionaries of
    [DisjointSet], which are only read and written by key, are [gmap]s;
    the Python [set] of the clustering step is a [gset], iterated in the
    order of [elements]. *)

From stdpp Require Import base option list gmap sets strings.
From Stdlib Require Import QArith.

Local Open Scope nat_scope.

Abbreviation path := string.

(** ** DisjointSet *)

Module DisjointSet.

(** [self.parent] and [self.rank]. *)
Record t := mk {
  parent : gmap string string;
  rank : gmap string nat
}.

(** [__init__]: two dict comprehensions over [elements]. *)
Definition init (elements : list path) : t :=
  {| parent := list_to_map ((λ e, (e, e)) <$> elements);
     rank := list_to_map ((λ e, (e, 0)) <$> elements) |}.

Definition set_parent (d : t) (k v : path) : t :=
  {| parent := <[k := v]> (parent d); rank := rank d |}.

Definition set_rank (d : t) (k : path) (v : nat) : t :=
  {| parent := parent d; rank := <[k := v]> (rank d) |}.

(** [find].  The recursion of the source follows parent pointers and is
    not structural, so it is bounded by [fuel]; [None] stands for a
    [KeyError] (element that was not given to the constructor) or for an
    exhausted bound.  The right-hand side [self.find(self.parent[element])]
    is evaluated before the assignment to [self.parent[element]].  The
    recursion limit of the interpreter is not modelled: with union by rank
    the depth stays logarithmic in the number of elements. *)
Fixpoint find (fuel : nat) (d : t) (element : path) : option (t * path) :=
  match fuel with
  | O => None
  | S fuel' =>
      p ← parent d !! element;
      if decide (p = element) then Some (d, element)
      else
        '(d1, r) ← find fuel' d p;
        let d2 := set_parent d1 element r in
        r' ← parent d2 !! element;
        Some (d2, r')
  end.

(** [union]: both roots are searched first (each search compresses its
    path), then the root of smaller rank is hung under the other. *)
Definition union (fuel : nat) (d : t) (element1 element2 : path)
  : option (t * bool) :=
  '(d1, root1) ← find fuel d element1;
  '(d2, root2) ← find fuel d1 element2;
  if decide (root1 ≠ root2) then
    rank1 ← rank d2 !! root1;
    rank2 ← rank d2 !! root2;
    if rank1 <? rank2 then Some (set_parent d2 root1 root2, true)
    else if rank2 <? rank1 then Some (set_parent d2 root2 root1, true)
    else Some (set_rank (set_parent d2 root2 root1) root1 (rank1 + 1), true)
  else Some (d2, false).

(** The representative of an element, read off the parent map without
    modifying it. *)
Inductive root_of (d : t) : path → path → Prop :=
| root_here x : parent d !! x = Some x → root_of d x x
| root_up x p r : parent d !! x = Some p → p ≠ x → root_of d p r → root_of d x r.

(** The parent map is an acyclic forest: from every member, following
    parent pointers reaches a self-parented root. *)
Definition acyclic (d : t) : Prop :=
  ∀ x, is_Some (parent d !! x) → ∃ r, root_of d x r.

Definition rk (d : t) (x : path) : nat := default 0 (rank d !! x).

(** Invariant of union by rank: both maps have the same keys, parents are
    members, ranks strictly grow towards the root, and no rank exceeds
    [B]. *)
Record inv (B : nat) (d : t) : Prop := {
  inv_rank_dom : ∀ x, is_Some (parent d !! x) ↔ is_Some (rank d !! x);
  inv_closed : ∀ x p, parent d !! x = Some p → is_Some (parent d !! p);
  inv_mono : ∀ x p, parent d !! x = Some p → p ≠ x → rk d x < rk d p;
  inv_bound : ∀ x, rk d x ≤ B
}.

(** [d'] is [d] after some path compressions: same ranks, same members,
    and every changed parent pointer now points at the old root. *)
Record compressed (d d' : t) : Prop := {
  cmp_rank : rank d' = rank d;
  cmp_dom : ∀ x, is_Some (parent d' !! x) ↔ is_Some (parent d !! x);
  cmp_parent : ∀ x, parent d' !! x = parent d !! x
                   ∨ ∃ r, parent d' !! x = Some r ∧ root_of d x r
}.

(** Two elements are in one component when they have a common
    representative. *)
Definition same_component (d : t) (x y : path) : Prop :=
  ∃ r, root_of d x r ∧ root_of d y r.

(** States reachable from the constructor by calls of [find] and [union]
    on members that return. *)
Inductive reachable (elements : list path) : t → Prop :=
| reach_init : reachable elements (init elements)
| reach_find d fuel x d' r :
    reachable elements d → x ∈ elements →
    find fuel d x = Some (d', r) → reachable elements d'
| reach_union d fuel x y d' b :
    reachable elements d → x ∈ elements → y ∈ elements →
    union fuel d x y = Some (d', b) → reachable elements d'.

End DisjointSet.

(** ** The outside world

    Everything the program reads from outside itself.  [find_image_files]
    is the value of the call [find_image_files(self.directory_path)];
    [phash p] is the outcome of [Image.open(p)] followed by
    [imagehash.phash]; [can_open p] says whether the later [Image.open(p)]
    of the worker succeeds; [cos_scores ps] is the tensor built by
    [model.encode] and [util.cos_sim] for the images opened from [ps]: one
    row and one column per image, so its length is the number of images and
    it is read as a function of two indices.  [None] stands for a raised
    exception.  [cancel_at] is the number of polls of [stop_event] that still
    see it clear: the event is set once (by [quit_app]) and never cleared. *)

Record world := {
  find_image_files : option (list path);
  phash : path → option N;
  can_open : path → bool;
  cos_scores : list path → option (nat → nat → Q);
  cancel_at : option nat
}.

(** ** compute_hashes *)

(** [hashes[hash_val].append(path)], or [hashes[hash_val] = [path]] for a
    new key; keys stay in insertion order. *)
Fixpoint dict_append {K V} `{EqDecision K} (k : K) (v : V)
    (dict : list (K * list V)) : list (K * list V) :=
  match dict with
  | [] => [(k, [v])]
  | (k', vs) :: rest =>
      if decide (k' = k) then (k', vs ++ [v]) :: rest
      else (k', vs) :: dict_append k v rest
  end.

(** [dict[k]], when the key is present. *)
Fixpoint dict_get {K V} `{EqDecision K} (k : K) (dict : list (K * list V))
  : option (list V) :=
  match dict with
  | [] => None
  | (k', vs) :: rest => if decide (k' = k) then Some vs else dict_get k rest
  end.

(** The loop of [compute_hashes]: a path whose image cannot be processed is
    reported and skipped. *)
Fixpoint hash_loop (w : world) (image_paths : list path)
    (hashes : list (N * list path)) : list (N * list path) :=
  match image_paths with
  | [] => hashes
  | p :: rest =>
      match phash w p with
      | Some hash_val => hash_loop w rest (dict_append hash_val p hashes)
      | None => hash_loop w rest hashes
      end
  end.

Definition compute_hashes (w : world) (image_paths : list path)
  : list (N * list path) :=
  filter (λ kv, 1 < length kv.2) (hash_loop w image_paths []).

(** The paths of a list whose image decodes and hashes to [k], in the order
    of the list. *)
Definition bucket_of (w : world) (k : N) (image_paths : list path) : list path :=
  filter (λ p, phash w p = Some k) image_paths.

(** ** DuplicateFinderWorker *)

Module DuplicateFinderWorker.

(** The texts sent as status messages; the numbers are the interpolated
    counts. *)
Inductive status_text :=
| Phase1 | NoImagesFound | FoundImages (n : nat)
| Phase2 | Prefiltered (n : nat) | NoPotentialDuplicates
| Phase3 | WorkerStopped | Identified (n : nat) | ErrorDuringProcessing.

(** The tuples put on [data_queue]. *)
Inductive message :=
| status (text : status_text)
| duplicate_group (group : list path)
| done.

(** What the worker does, in order: queue puts, polls of
    [stop_event.is_set()] with their answer, image opens and encoder
    calls of the similarity phase. *)
Inductive event :=
| EvPut (m : message)
| EvPoll (b : bool)
| EvOpen (p : path)
| EvEncode (ps : list path).

(** [clock] counts the polls made so far. *)
Record wstate := { clock : nat; trace : list event }.

Definition log (e : event) (s : wstate) : wstate :=
  {| clock := clock s; trace := trace s ++ [e] |}.

Definition put (m : message) (s : wstate) : wstate := log (EvPut m) s.

Definition stopped (w : world) (k : nat) : bool :=
  match cancel_at w with Some t => t <=? k | None => false end.

Definition is_set (w : world) (s : wstate) : bool * wstate :=
  let b := stopped w (clock s) in
  (b, {| clock := S (clock s); trace := trace s ++ [EvPoll b] |}).

(** The loop that opens the images of one bucket.  [images] and
    [valid_group_paths] grow together, so only the paths are kept and
    [len(images)] is the length of the result. *)
Fixpoint open_images (w : world) (ps : list path)
    (valid_group_paths : list path) (s : wstate) : list path * wstate :=
  match ps with
  | [] => (valid_group_paths, s)
  | p :: rest =>
      let '(b, s) := is_set w s in
      if b then (valid_group_paths, s)
      else
        let s := log (EvOpen p) s in
        if can_open w p
        then open_images w rest (valid_group_paths ++ [p]) s
        else open_images w rest valid_group_paths s
  end.

Definition threshold : Q := 98 # 100.

(** [for j in range(i + 1, len(cos_scores))], with its [break]. *)
Fixpoint inner_loop (w : world) (cos : nat → nat → Q)
    (valid_group_paths : list path) (i : nat) (js : list nat)
    (pairs : list (path * path)) (s : wstate)
  : list (path * path) * wstate :=
  match js with
  | [] => (pairs, s)
  | j :: rest =>
      let '(b, s) := is_set w s in
      if b then (pairs, s)
      else
        let pairs :=
          if Qle_bool threshold (cos i j)
          then pairs ++ [(valid_group_paths !!! i, valid_group_paths !!! j)]
          else pairs in
        inner_loop w cos valid_group_paths i rest pairs s
  end.

(** [for i in range(len(cos_scores) - 1)]; the [break] of the inner loop
    does not leave this one. *)
Fixpoint outer_loop (w : world) (cos : nat → nat → Q)
    (valid_group_paths : list path) (n : nat) (rows : list nat)
    (pairs : list (path * path)) (s : wstate)
  : list (path * path) * wstate :=
  match rows with
  | [] => (pairs, s)
  | i :: rest =>
      let '(pairs, s) :=
        inner_loop w cos valid_group_paths i (seq (i + 1) (n - (i + 1))) pairs s in
      outer_loop w cos valid_group_paths n rest pairs s
  end.

Definition score_pairs (w : world) (cos : nat → nat → Q)
    (valid_group_paths : list path) (s : wstate)
  : list (path * path) * wstate :=
  let n := length valid_group_paths in
  outer_loop w cos valid_group_paths n (seq 0 (n - 1)) [] s.

(** How the similarity step of one bucket ends: [break] out of the
    bucket loop, [continue] with the next bucket, an exception of the
    encoder, or the list of pairs at or above the threshold. *)
Inductive refined :=
| RBreak
| RContinue
| RRaise
| REdges (valid_group_paths : list path) (pairs : list (path * path)).

(** Lines 71 to 108 of [run] for one bucket. *)
Definition refine (w : world) (bucket : list path) (s : wstate)
  : refined * wstate :=
  let '(b, s) := is_set w s in
  if b then (RBreak, s) else
  let '(valid, s) := open_images w bucket [] s in
  let '(b, s) := is_set w s in
  if b then (RBreak, s) else
  if length valid <? 2 then (RContinue, s) else
  let s := log (EvEncode valid) s in
  match cos_scores w valid with
  | None => (RRaise, s)
  | Some cos =>
      let '(pairs, s) := score_pairs w cos valid s in
      let '(b, s) := is_set w s in
      if b then (RBreak, s) else (REdges valid pairs, s)
  end.

(** [current_sub_group_unique_paths]: the set of the paths of the pairs. *)
Definition unique_paths (pairs : list (path * path)) : gset path :=
  list_to_set (pairs ≫= λ pq, [pq.1; pq.2]).

Fixpoint union_all (fuel : nat) (dsu : DisjointSet.t)
    (pairs : list (path * path)) : option DisjointSet.t :=
  match pairs with
  | [] => Some dsu
  | (p1, p2) :: rest =>
      '(dsu, _) ← DisjointSet.union fuel dsu p1 p2;
      union_all fuel dsu rest
  end.

(** The grouping loop: each path is appended to the list of its root. *)
Fixpoint group_by_root (fuel : nat) (dsu : DisjointSet.t) (ps : list path)
    (grouped : list (path * list path)) : option (list (path * list path)) :=
  match ps with
  | [] => Some grouped
  | p :: rest =>
      '(dsu, root) ← DisjointSet.find fuel dsu p;
      group_by_root fuel dsu rest (dict_append root p grouped)
  end.

(** Lines 112 to 128.  The recursion bound given to the union-find calls
    is one more than the number of pairs, which [cluster_returns] shows to
    be enough; [None] would be an exception. *)
Definition cluster (pairs : list (path * path)) : option (list (list path)) :=
  let fuel := S (length pairs) in
  let unique := elements (unique_paths pairs) in
  dsu ← union_all fuel (DisjointSet.init unique) pairs;
  grouped ← group_by_root fuel dsu unique [];
  Some (filter (λ group, 1 < length group) grouped.*2).

(** How the loop over the buckets is left. *)
Inductive loop_exit := Exhausted | Broken | Raised.

Definition put_groups (groups : list (list path)) (s : wstate) : wstate :=
  foldl (λ s group, put (duplicate_group group) s) s groups.

(** The loop over [image_groups.values()], with the running
    [total_duplicate_groups_found]. *)
Fixpoint buckets_loop (w : world) (buckets : list (list path))
    (total : nat) (s : wstate) : loop_exit * nat * wstate :=
  match buckets with
  | [] => (Exhausted, total, s)
  | bucket :: rest =>
      match refine w bucket s with
      | (RBreak, s) => (Broken, total, s)
      | (RContinue, s) => buckets_loop w rest total s
      | (RRaise, s) => (Raised, total, s)
      | (REdges _ [], s) => buckets_loop w rest total s
      | (REdges _ pairs, s) =>
          match cluster pairs with
          | None => (Raised, total, s)
          | Some groups =>
              buckets_loop w rest (total + length groups) (put_groups groups s)
          end
      end
  end.

(** How the [try] block is left. *)
Inductive outcome := FellThrough | Returned | Raise.

(** The body of the [try] block of [run]. *)
Definition run_try (w : world) (s : wstate) : outcome * wstate :=
  let s := put (status Phase1) s in
  match find_image_files w with
  | None => (Raise, s)
  | Some [] =>
      let s := put (status NoImagesFound) s in
      let s := put done s in
      (Returned, s)
  | Some image_paths =>
      let s := put (status (FoundImages (length image_paths))) s in
      let s := put (status Phase2) s in
      let image_groups := compute_hashes w image_paths in
      let num_prefiltered_groups := length image_groups in
      let s := put (status (Prefiltered num_prefiltered_groups)) s in
      if num_prefiltered_groups =? 0 then
        let s := put (status NoPotentialDuplicates) s in
        let s := put done s in
        (Returned, s)
      else
        let s := put (status Phase3) s in
        match buckets_loop w image_groups.*2 0 s with
        | (Raised, _, s) => (Raise, s)
        | (_, total, s) =>
            let '(b, s) := is_set w s in
            if b then
              let s := put (status WorkerStopped) s in
              let s := put done s in
              (Returned, s)
            else
              (FellThrough, put (status (Identified total)) s)
        end
  end.

(** [run]: the [except] clause reports the error, and the [finally]
    clause puts [done] however the [try] block was left. *)
Definition run (w : world) : wstate :=
  let '(o, s) := run_try w {| clock := 0; trace := [] |} in
  let s := match o with
           | Raise => put (status ErrorDuringProcessing) s
           | _ => s
           end in
  put done s.

(** What the consumer finds on [data_queue]. *)
Definition puts (tr : list event) : list message :=
  omap (λ e, match e with EvPut m => Some m | _ => None end) tr.

Definition data_queue (w : world) : list message := puts (trace (run w)).

End DuplicateFinderWorker.

(** ** DuplicateFinderApp

    The consumer without its widgets.  The entries of [all_duplicates] are
    Python dictionaries that are mutated in place and shared with the copy
    of the list made by [start_auto_delete], so they live in a store
    ([objects], in allocation order) and [all_duplicates] holds references
    into it.  [duplicate_buttons] keeps its keys only.  The file system is
    the set of existing files, the set of files that [os.remove] refuses,
    and the record of the [os.remove] calls with their success. *)

Module DuplicateFinderApp.
Import DuplicateFinderWorker.

Inductive group_status := pending | kept_one | all_deleted | skipped.

(** [{"id": ..., "paths": ..., "status": ...}] *)
Record entry := {
  id : nat;
  paths : list path;
  gstatus : group_status
}.

Record app := {
  objects : list entry;
  all_duplicates : list nat;
  duplicate_buttons : gset nat;
  auto_delete_active : bool;
  found_groups_count : nat;
  deleted_pictures_count : nat;
  selected_image_path : option path;
  current_pair_paths : option (list path);
  files : gset path;
  locked : gset path;
  removals : list (path * bool)
}.

(** [__init__], for a given file system. *)
Definition init (fs protected : gset path) : app :=
  {| objects := []; all_duplicates := []; duplicate_buttons := ∅;
     auto_delete_active := false; found_groups_count := 0;
     deleted_pictures_count := 0; selected_image_path := None;
     current_pair_paths := None; files := fs; locked := protected;
     removals := [] |}.

Definition with_groups (objs : list entry) (refs : list nat) (a : app) : app :=
  {| objects := objs; all_duplicates := refs;
     duplicate_buttons := duplicate_buttons a;
     auto_delete_active := auto_delete_active a;
     found_groups_count := found_groups_count a;
     deleted_pictures_count := deleted_pictures_count a;
     selected_image_path := selected_image_path a;
     current_pair_paths := current_pair_paths a;
     files := files a; locked := locked a; removals := removals a |}.

Definition with_buttons (b : gset nat) (a : app) : app :=
  {| objects := objects a; all_duplicates := all_duplicates a;
     duplicate_buttons := b;
     auto_delete_active := auto_delete_active a;
     found_groups_count := found_groups_count a;
     deleted_pictures_count := deleted_pictures_count a;
     selected_image_path := selected_image_path a;
     current_pair_paths := current_pair_paths a;
     files := files a; locked := locked a; removals := removals a |}.

Definition with_auto (b : bool) (a : app) : app :=
  {| objects := objects a; all_duplicates := all_duplicates a;
     duplicate_buttons := duplicate_buttons a;
     auto_delete_active := b;
     found_groups_count := found_groups_count a;
     deleted_pictures_count := deleted_pictures_count a;
     selected_image_path := selected_image_path a;
     current_pair_paths := current_pair_paths a;
     files := files a; locked := locked a; removals := removals a |}.

Definition with_counts (found deleted : nat) (a : app) : app :=
  {| objects := objects a; all_duplicates := all_duplicates a;
     duplicate_buttons := duplicate_buttons a;
     auto_delete_active := auto_delete_active a;
     found_groups_count := found;
     deleted_pictures_count := deleted;
     selected_image_path := selected_image_path a;
     current_pair_paths := current_pair_paths a;
     files := files a; locked := locked a; removals := removals a |}.

Definition with_selection (sel : option path) (cur : option (list path))
    (a : app) : app :=
  {| objects := objects a; all_duplicates := all_duplicates a;
     duplicate_buttons := duplicate_buttons a;
     auto_delete_active := auto_delete_active a;
     found_groups_count := found_groups_count a;
     deleted_pictures_count := deleted_pictures_count a;
     selected_image_path := sel;
     current_pair_paths := cur;
     files := files a; locked := locked a; removals := removals a |}.

Definition with_fs (fs : gset path) (log : list (path * bool)) (a : app) : app :=
  {| objects := objects a; all_duplicates := all_duplicates a;
     duplicate_buttons := duplicate_buttons a;
     auto_delete_active := auto_delete_active a;
     found_groups_count := found_groups_count a;
     deleted_pictures_count := deleted_pictures_count a;
     selected_image_path := selected_image_path a;
     current_pair_paths := current_pair_paths a;
     files := fs; locked := locked a; removals := log |}.

(** [os.remove(p)] inside its [try]: [true] when the file was removed,
    [false] when [OSError] was caught. *)
Definition os_remove (p : path) (a : app) : bool * app :=
  if decide (p ∈ files a ∧ p ∉ locked a)
  then (true, with_fs (files a ∖ {[p]}) (removals a ++ [(p, true)]) a)
  else (false, with_fs (files a) (removals a ++ [(p, false)]) a).

(** The two deletion loops of [confirm_selection]: [keep] is the selected
    path of the second loop and [None] in the first one.  The result is
    [deleted_count]. *)
Fixpoint delete_loop (keep : option path) (group_paths : list path)
    (deleted_count : nat) (a : app) : nat * app :=
  match group_paths with
  | [] => (deleted_count, a)
  | path_to_delete :: rest =>
      if decide (Some path_to_delete = keep)
      then delete_loop keep rest deleted_count a
      else
        let '(ok, a) := os_remove path_to_delete a in
        delete_loop keep rest (if ok then deleted_count + 1 else deleted_count) a
  end.

(** [for item in self.all_duplicates: if item["paths"] == group_paths]:
    the reference of the first entry with these paths. *)
Fixpoint find_item (objs : list entry) (refs : list nat)
    (group_paths : list path) : option nat :=
  match refs with
  | [] => None
  | r :: rest =>
      match objs !! r with
      | Some item =>
          if decide (paths item = group_paths) then Some r
          else find_item objs rest group_paths
      | None => find_item objs rest group_paths
      end
  end.

Definition entry_id (objs : list entry) (r : nat) : option nat :=
  id <$> objs !! r.

(** [item["status"] = st] *)
Definition set_status (r : nat) (st : group_status) (a : app) : app :=
  with_groups
    (alter (λ item, {| id := id item; paths := paths item; gstatus := st |})
           r (objects a))
    (all_duplicates a) a.

Definition update_group_status_and_remove_button (group_id : nat) (a : app)
  : app :=
  let a := with_buttons (duplicate_buttons a ∖ {[group_id]}) a in
  with_groups (objects a)
    (filter (λ r, entry_id (objects a) r ≠ Some group_id) (all_duplicates a)) a.

Definition clear_viewer_and_selection (a : app) : app :=
  with_selection None None a.

Definition add_deleted (deleted_count : nat) (a : app) : app :=
  with_counts (found_groups_count a) (deleted_pictures_count a + deleted_count) a.

(** [confirm_selection].  An empty or missing [current_pair_paths] is
    falsy; a selected path is a [Path] object and always truthy. *)
Definition confirm_selection (a : app) : app :=
  match current_pair_paths a with
  | None | Some [] => a
  | Some group_paths =>
      match selected_image_path a with
      | None =>
          let '(deleted_count, a) := delete_loop None group_paths 0 a in
          let a := add_deleted deleted_count a in
          let a :=
            match find_item (objects a) (all_duplicates a) group_paths with
            | Some r =>
                let processed_group_id := default 0 (entry_id (objects a) r) in
                let a := set_status r all_deleted a in
                update_group_status_and_remove_button processed_group_id a
            | None => a
            end in
          clear_viewer_and_selection a
      | Some keep =>
          match find_item (objects a) (all_duplicates a) group_paths with
          | None => a
          | Some r =>
              let processed_group_id := default 0 (entry_id (objects a) r) in
              let a := set_status r kept_one a in
              let '(deleted_count, a) := delete_loop (Some keep) group_paths 0 a in
              let a := add_deleted deleted_count a in
              let a := update_group_status_and_remove_button processed_group_id a in
              clear_viewer_and_selection a
          end
      end
  end.

Definition skip_group (a : app) : app :=
  match current_pair_paths a with
  | None | Some [] => a
  | Some group_paths =>
      match find_item (objects a) (all_duplicates a) group_paths with
      | None => a
      | Some r =>
          let processed_group_id := default 0 (entry_id (objects a) r) in
          let a := set_status r skipped a in
          let a := update_group_status_and_remove_button processed_group_id a in
          clear_viewer_and_selection a
      end
  end.

(** [next((item for item in self.all_duplicates if item["id"] == duplicate_id), None)] *)
Fixpoint find_by_id (objs : list entry) (refs : list nat) (duplicate_id : nat)
  : option entry :=
  match refs with
  | [] => None
  | r :: rest =>
      match objs !! r with
      | Some item =>
          if decide (id item = duplicate_id) then Some item
          else find_by_id objs rest duplicate_id
      | None => find_by_id objs rest duplicate_id
      end
  end.

Definition display_selected_group (duplicate_id : nat) (a : app) : app :=
  match find_by_id (objects a) (all_duplicates a) duplicate_id with
  | Some group_data => with_selection None (Some (paths group_data)) a
  | None => a
  end.

Definition select_image_to_keep (image_path : path) (a : app) : app :=
  with_selection (Some image_path) (current_pair_paths a) a.

(** The loop of [start_auto_delete] over the copied list: the entries are
    read through the store, so a status written meanwhile is seen.
    [item["paths"][0]] on an empty list would raise and end the callback. *)
Fixpoint auto_delete_loop (snapshot : list nat) (a : app) : app :=
  match snapshot with
  | [] => a
  | r :: rest =>
      match objects a !! r with
      | Some item =>
          match gstatus item, paths item with
          | pending, first :: _ =>
              let a := with_selection (Some first) (Some (paths item)) a in
              auto_delete_loop rest (confirm_selection a)
          | pending, [] => a
          | _, _ => auto_delete_loop rest a
          end
      | None => auto_delete_loop rest a
      end
  end.

Definition start_auto_delete (a : app) : app :=
  let a := with_auto true a in
  auto_delete_loop (all_duplicates a) a.

Definition stop_auto_delete (a : app) : app := with_auto false a.

(** One message taken from the queue by [process_queue]. *)
Definition on_message (m : message) (a : app) : app :=
  match m with
  | status _ => a
  | duplicate_group group_paths =>
      if decide (1 < length group_paths) then
        let duplicate_id := length (all_duplicates a) in
        let r := length (objects a) in
        let a :=
          with_groups
            (objects a ++ [{| id := duplicate_id; paths := group_paths;
                              gstatus := pending |}])
            (all_duplicates a ++ [r]) a in
        let a := with_counts (found_groups_count a + 1) (deleted_pictures_count a) a in
        if auto_delete_active a then
          let a := with_selection (head group_paths) (Some group_paths) a in
          confirm_selection a
        else
          with_buttons (duplicate_buttons a ∪ {[duplicate_id]}) a
      else a
  | done => a
  end.

(** [process_queue]: messages are handled until the queue is empty or a
    [done] is met; the rest stays queued for the next poll. *)
Fixpoint process_queue (queue : list message) (a : app) : app * list message :=
  match queue with
  | [] => (a, [])
  | done :: rest => (a, rest)
  | m :: rest => process_queue rest (on_message m a)
  end.

(** What can happen to the application, one at a time. *)
Inductive action :=
| Receive (m : message)
| Display (duplicate_id : nat)
| Select (image_path : path)
| Confirm
| Skip
| StartAuto
| StopAuto.

Definition step (a : app) (act : action) : app :=
  match act with
  | Receive m => on_message m a
  | Display duplicate_id => display_selected_group duplicate_id a
  | Select image_path => select_image_to_keep image_path a
  | Confirm => confirm_selection a
  | Skip => skip_group a
  | StartAuto => start_auto_delete a
  | StopAuto => stop_auto_delete a
  end.

Definition run_actions (a : app) (acts : list action) : app :=
  foldl step a acts.

(** The entries currently listed in [all_duplicates]. *)
Definition active (a : app) : list entry :=
  omap (λ r, objects a !! r) (all_duplicates a).

End DuplicateFinderApp.

(** ** Notions used in the statements *)

Module Notions.
Import DuplicateFinderWorker DuplicateFinderApp.

(** The paths for which a resolution calls [os.remove]: all the paths of
    the group but the selected one, if any. *)
Definition targets (keep : option path) (group_paths : list path) : list path :=
  filter (λ p, Some p ≠ keep) group_paths.

(** The pairs of row [i] at or above the threshold, for the columns [js]. *)
Definition row_pairs (cos : nat → nat → Q) (valid : list path) (i : nat)
    (js : list nat) : list (path * path) :=
  (λ j, (valid !!! i, valid !!! j))
    <$> filter (λ j, Qle_bool threshold (cos i j) = true) js.

(** All the pairs [(i, j)], [i < j], of a batch of [length valid] images
    whose score is at least the threshold, row by row. *)
Definition threshold_pairs (cos : nat → nat → Q) (valid : list path)
  : list (path * path) :=
  let n := length valid in
  seq 0 (n - 1) ≫= λ i, row_pairs cos valid i (seq (i + 1) (n - (i + 1))).

(** Events that may still follow a poll that saw the stop event set:
    further polls that see it set, status messages and [done]. *)
Definition quiet (e : event) : Prop :=
  match e with
  | EvPoll true | EvPut (status _) | EvPut done => True
  | _ => False
  end.

(** Nothing but quiet events after a poll that saw the stop event set. *)
Definition halts_after_stop (tr : list event) : Prop :=
  ∀ pre post, tr = pre ++ EvPoll true :: post → Forall quiet post.

(** No poll made so far has seen the stop event set. *)
Definition live (w : world) (s : wstate) : Prop :=
  ∀ k, k < clock s → stopped w k = false.

(** Every group put on the queue has at least two members, all distinct. *)
Definition groups_ok (tr : list event) : Prop :=
  ∀ g, EvPut (duplicate_group g) ∈ tr → NoDup g ∧ 2 ≤ length g.

Definition is_done (m : message) : bool :=
  match m with done => true | _ => false end.

(** The number of [("done", None)] messages in a queue. *)
Definition done_count (queue : list message) : nat :=
  length (filter (λ m, is_done m = true) queue).

(** The invariant of the worker up to the end of the bucket loop. *)
Record worker_inv (w : world) (s : wstate) : Prop := {
  wi_halts : halts_after_stop (trace s);
  wi_live : live w s → EvPoll true ∉ trace s;
  wi_groups : groups_ok (trace s);
  wi_done : done_count (puts (trace s)) = 0
}.

(** What holds of the trace once [done] messages are allowed: [n] of them
    so far. *)
Definition closing (s : wstate) (n : nat) : Prop :=
  halts_after_stop (trace s) ∧ groups_ok (trace s)
  ∧ done_count (puts (trace s)) = n.

End Notions.

(** ** Sample inputs *)

Module Samples.
Import DuplicateFinderWorker DuplicateFinderApp.

(** A directory without image files. *)
Definition empty_directory : world :=
  {| find_image_files := Some [];
     phash := λ _, None;
     can_open := λ _, false;
     cos_scores := λ _, None;
     cancel_at := None |}.

(** Three images with one perceptual hash and pairwise similarity 0.99,
    and a stop event that the second poll already sees set. *)
Definition cancelled_scan : world :=
  {| find_image_files := Some ["a.png"; "b.png"; "c.png"];
     phash := λ _, Some 7%N;
     can_open := λ _, true;
     cos_scores := λ _, Some (λ _ _, 99 # 100);
     cancel_at := Some 1 |}.

(** The same directory, never cancelled. *)
Definition full_scan : world :=
  {| find_image_files := Some ["a.png"; "b.png"; "c.png"];
     phash := λ _, Some 7%N;
     can_open := λ _, true;
     cos_scores := λ _, Some (λ _ _, 99 # 100);
     cancel_at := None |}.

Definition six_files : gset path :=
  list_to_set ["a1"; "a2"; "b1"; "b2"; "c1"; "c2"].

(** Two groups arrive, the first one is displayed and skipped, then a
    third group arrives. *)
Definition skip_then_receive : list action :=
  [ Receive (duplicate_group ["a1"; "a2"]);
    Receive (duplicate_group ["b1"; "b2"]);
    Display 0;
    Skip;
    Receive (duplicate_group ["c1"; "c2"]) ].

End Samples.

(** ** Notions used for the rest of the code *)

Module MoreNotions.
Import DuplicateFinderWorker DuplicateFinderApp.

(** Two paths are linked by a list of pairs when a chain of pairs, read in
    either direction, leads from one to the other. *)
Definition linked (pairs : list (path * path)) : relation path :=
  rtsc (λ p q, (p, q) ∈ pairs).

(** The paths given to [os.remove] with success, in order. *)
Definition removed (log : list (path * bool)) : list path :=
  (filter (λ x, x.2 = true) log).*1.

(** The messages that register a group: lists of at least two paths. *)
Definition registers (m : message) : Prop :=
  match m with
  | duplicate_group group => 1 < length group
  | _ => False
  end.

(** The groups carried by the messages of a queue. *)
Definition groups_of (queue : list message) : list (list path) :=
  omap (λ m, match m with duplicate_group g => Some g | _ => None end) queue.


(** [item["status"] = st] on one entry. *)
Definition mark (st : group_status) (item : entry) : entry :=
  {| id := id item; paths := paths item; gstatus := st |}.

(** The path lists of all the groups registered so far. *)
Definition group_lists (a : app) : list (list path) := paths <$> objects a.

(** The path lists of the listed entries, in the order of the list. *)
Definition active_paths (a : app) : list (option (list path)) :=
  (λ r, paths <$> objects a !! r) <$> all_duplicates a.

(** The groups that a list of actions registers, in order. *)
Definition received (acts : list action) : list (list path) :=
  acts ≫= λ act,
    match act with
    | Receive (duplicate_group g) => if decide (1 < length g) then [g] else []
    | _ => []
    end.

(** What every state of the application satisfies, for the files [fs0]
    present at the start. *)
Record app_ok (fs0 : gset path) (a : app) : Prop := {
  ok_count : deleted_pictures_count a = length (removed (removals a));
  ok_files : files a = fs0 ∖ list_to_set (removed (removals a));
  ok_found : found_groups_count a = length (objects a);
  ok_pending : ∀ r, r ∈ all_duplicates a →
                    ∃ e, objects a !! r = Some e ∧ gstatus e = pending;
  ok_targets : ∀ p b, (p, b) ∈ removals a → ∃ g, g ∈ group_lists a ∧ p ∈ g;
  ok_current : ∀ g, current_pair_paths a = Some g → g ∈ group_lists a;
  ok_sizes : ∀ g, g ∈ group_lists a → 1 < length g
}.

End MoreNotions.

(** Refutes membership in a list written out in full whose elements all
    differ from the one looked for by their constructors. *)
Ltac not_in_literal H :=
  repeat (apply elem_of_cons in H as [H | H]; [discriminate H |]);
  by apply elem_of_nil in H.

(** ** Facts about DisjointSet *)

Section DisjointSetFacts.
Import DisjointSet.

Lemma root_of_is_root d x r : root_of d x r → parent d !! r = Some r.
Proof. induction 1; auto. Qed.

Lemma root_of_det d x r1 r2 : root_of d x r1 → root_of d x r2 → r1 = r2.
Proof.
  intros H1; revert r2; induction H1 as [x Hx | x p r Hp Hne _ IH]; intros r2 H2.
  - inversion H2; subst; [done | congruence].
  - inversion H2; subst; [congruence |].
    apply IH. congruence.
Qed.

Lemma root_of_member d x r : root_of d x r → is_Some (parent d !! x).
Proof. destruct 1; eauto. Qed.

Lemma root_of_ext d d' x r :
  parent d' = parent d → root_of d x r → root_of d' x r.
Proof.
  intros E; induction 1 as [x Hx | x p r Hp Hne _ IH].
  - apply root_here. by rewrite E.
  - eapply root_up; [by rewrite E | done | done].
Qed.

Lemma compressed_refl d : compressed d d.
Proof. split; auto. Qed.

(** Compression keeps every representative. *)
Lemma compressed_root d d' x r :
  compressed d d' → root_of d x r → root_of d' x r.
Proof.
  intros C; induction 1 as [x Hx | x p r Hp Hne Hr IH].
  - apply root_here.
    destruct (cmp_parent _ _ C x) as [E | (r' & E & Hr')]; [congruence |].
    rewrite E. f_equal. eapply root_of_det; [done | by apply root_here].
  - assert (Hrr : parent d' !! r = Some r) by by eapply root_of_is_root.
    destruct (cmp_parent _ _ C x) as [E | (r' & E & Hr')].
    + apply (root_up _ x p r); [by rewrite E | done | done].
    + assert (r' = r) as ->.
      { eapply root_of_det; [done | by eapply root_up]. }
      destruct (decide (r = x)) as [-> | Hrx]; [by apply root_here |].
      eapply root_up; [done | done | by apply root_here].
Qed.

Lemma compressed_root_inv d d' x r :
  acyclic d → compressed d d' → root_of d' x r → root_of d x r.
Proof.
  intros A C H.
  destruct (A x) as [r0 H0].
  { apply (cmp_dom _ _ C). by eapply root_of_member. }
  pose proof (compressed_root _ _ _ _ C H0) as H0'.
  by rewrite (root_of_det _ _ _ _ H H0').
Qed.

Lemma compressed_trans d d1 d2 :
  acyclic d → compressed d d1 → compressed d1 d2 → compressed d d2.
Proof.
  intros A C1 C2; split.
  - by rewrite (cmp_rank _ _ C2), (cmp_rank _ _ C1).
  - intros x. by rewrite (cmp_dom _ _ C2), (cmp_dom _ _ C1).
  - intros x.
    destruct (cmp_parent _ _ C2 x) as [E | (r & E & Hr)].
    + rewrite E. apply (cmp_parent _ _ C1).
    + right. exists r. split; [done |]. by eapply compressed_root_inv.
Qed.

Lemma rk_compressed d d' x : compressed d d' → rk d' x = rk d x.
Proof. intros C. unfold rk. by rewrite (cmp_rank _ _ C). Qed.

(** Ranks strictly grow from an element to its representative. *)
Lemma root_rank B d x r :
  inv B d → root_of d x r → r ≠ x → rk d x < rk d r.
Proof.
  intros I; induction 1 as [x Hx | x p r Hp Hne Hr IH]; intros Hrx; [done |].
  pose proof (inv_mono _ _ I _ _ Hp Hne).
  destruct (decide (r = p)) as [-> | Hrp]; [done |].
  specialize (IH Hrp). lia.
Qed.

Lemma inv_acyclic B d : inv B d → acyclic d.
Proof.
  intros I x.
  remember (S (B - rk d x)) as n eqn:Hn.
  assert (Hlt : B - rk d x < n) by lia. clear Hn.
  revert x Hlt. induction n as [| n IH]; intros x Hlt [p Hp]; [lia |].
  destruct (decide (p = x)) as [-> | Hne].
  - exists x. by apply root_here.
  - pose proof (inv_mono _ _ I _ _ Hp Hne).
    pose proof (inv_bound _ _ I p).
    destruct (IH p) as [r Hr]; [lia | by eapply inv_closed |].
    exists r. by eapply root_up.
Qed.

Lemma compressed_inv B d d' : inv B d → compressed d d' → inv B d'.
Proof.
  intros I C; split.
  - intros x. rewrite (cmp_dom _ _ C), (cmp_rank _ _ C). apply (inv_rank_dom _ _ I).
  - intros x p Hp. apply (cmp_dom _ _ C).
    destruct (cmp_parent _ _ C x) as [E | (r & E & Hr)].
    + eapply inv_closed; [done | by rewrite <- E].
    + assert (r = p) as -> by congruence.
      rewrite (root_of_is_root _ _ _ Hr). eauto.
  - intros x p Hp Hne. rewrite !(rk_compressed _ _ _ C).
    destruct (cmp_parent _ _ C x) as [E | (r & E & Hr)].
    + eapply inv_mono; [done | by rewrite <- E | done].
    + assert (r = p) as -> by congruence.
      by eapply root_rank.
  - intros x. rewrite (rk_compressed _ _ _ C). apply (inv_bound _ _ I).
Qed.

Lemma inv_weaken B B' d : inv B d → B ≤ B' → inv B' d.
Proof.
  intros [H1 H2 H3 H4] Hle; split; auto.
  intros x. specialize (H4 x). lia.
Qed.

(** [find] returns the representative and leaves a compressed forest, as
    soon as the bound exceeds the rank distance to the top. *)
Lemma find_spec B d fuel x :
  inv B d → is_Some (parent d !! x) → B - rk d x < fuel →
  ∃ d' r, find fuel d x = Some (d', r) ∧ root_of d x r
          ∧ compressed d d' ∧ parent d' !! x = Some r.
Proof.
  intros I. revert x. induction fuel as [| n IH]; intros x [p Hp] Hlt; [lia |].
  simpl. rewrite Hp. simpl.
  destruct (decide (p = x)) as [-> | Hne].
  - exists d, x. split_and!; auto using compressed_refl. by apply root_here.
  - pose proof (inv_mono _ _ I _ _ Hp Hne).
    pose proof (inv_bound _ _ I p).
    destruct (IH p) as (d1 & r & -> & Hr & C & Hpr);
      [by eapply inv_closed | lia |].
    simpl. rewrite lookup_insert_eq. simpl.
    exists (set_parent d1 x r), r. split_and!; auto.
    + by eapply root_up.
    + split; simpl.
      * apply (cmp_rank _ _ C).
      * intros y. rewrite lookup_insert. case_decide; subst.
        -- split; eauto.
        -- apply (cmp_dom _ _ C).
      * intros y. rewrite lookup_insert. case_decide; subst.
        -- right. exists r. split; [done |]. by eapply root_up.
        -- apply (cmp_parent _ _ C).
    + simpl. by rewrite lookup_insert_eq.
Qed.

Lemma find_mono n m d x res :
  find n d x = Some res → n ≤ m → find m d x = Some res.
Proof.
  revert m d x res. induction n as [| n IH]; intros m d x res H Hle; [done |].
  destruct m as [| m]; [lia |].
  simpl in *. destruct (parent d !! x) as [p |]; [simpl in * | done].
  case_decide; [done |].
  destruct (find n d p) as [[d1 r] |] eqn:E; [| done].
  by rewrite (IH m _ _ _ E ltac:(lia)).
Qed.

Lemma union_mono n m d x y res :
  union n d x y = Some res → n ≤ m → union m d x y = Some res.
Proof.
  unfold union. intros H Hle.
  destruct (find n d x) as [[d1 r1] |] eqn:E1; [| done].
  rewrite (find_mono _ _ _ _ _ E1 Hle). simpl in *.
  destruct (find n d1 y) as [[d2 r2] |] eqn:E2; [| done].
  by rewrite (find_mono _ _ _ _ _ E2 Hle).
Qed.

(** Hanging one root under another: the representatives that were [a]
    become [b], the others stay. *)
Lemma link_root d a b z rz :
  parent d !! a = Some a → parent d !! b = Some b → a ≠ b →
  root_of d z rz →
  root_of (set_parent d a b) z (if decide (rz = a) then b else rz).
Proof.
  intros Ha Hb Hab. induction 1 as [z Hz | z p r Hp Hne Hr IH].
  - case_decide; subst.
    + apply (root_up _ a b b); simpl.
      * by rewrite lookup_insert_eq.
      * done.
      * apply root_here. simpl. by rewrite lookup_insert_ne.
    + apply root_here. simpl. by rewrite lookup_insert_ne.
  - apply (root_up _ z p); [| done | done].
    simpl. rewrite lookup_insert_ne; [done |]. congruence.
Qed.

Lemma link_inv B d a b :
  inv B d → parent d !! a = Some a → parent d !! b = Some b → a ≠ b →
  rk d a < rk d b → inv B (set_parent d a b).
Proof.
  intros I Ha Hb Hab Hlt; split; simpl.
  - intros x. rewrite <- (inv_rank_dom _ _ I). rewrite lookup_insert.
    case_decide; subst; [| done]. split; eauto.
  - intros x p. rewrite !lookup_insert. intros Hx.
    repeat case_decide; simplify_eq; eauto using inv_closed.
  - intros x p. rewrite lookup_insert. intros Hx Hne.
    change (rk d x < rk d p).
    case_decide; simplify_eq; [done |]. by eapply inv_mono.
  - apply (inv_bound _ _ I).
Qed.

Lemma link_inv_bump B d a b ra :
  inv B d → parent d !! a = Some a → parent d !! b = Some b → a ≠ b →
  rank d !! a = Some ra → rk d b = ra →
  inv (S B) (set_rank (set_parent d b a) a (ra + 1)).
Proof.
  intros I Ha Hb Hab Hra Hrb.
  assert (Hrk : ∀ x, rk (set_rank (set_parent d b a) a (ra + 1)) x
                     = if decide (a = x) then ra + 1 else rk d x).
  { intros x. unfold rk; simpl. rewrite lookup_insert. by case_decide. }
  assert (Hrka : rk d a = ra) by (unfold rk; by rewrite Hra).
  split.
  - intros x; simpl. rewrite !lookup_insert.
    destruct (decide (b = x)) as [Ebx |], (decide (a = x)) as [Eax |];
      try (split; eauto; fail).
    + subst x. split; [intros _ | eauto]. apply (inv_rank_dom _ _ I b); eauto.
    + subst x. rewrite Ha. split; eauto.
    + apply (inv_rank_dom _ _ I).
  - intros x p; simpl. rewrite !lookup_insert. intros Hx.
    destruct (decide (b = x)) as [Ebx |], (decide (b = p)) as [Ebp |];
      simplify_eq; eauto using inv_closed.
  - intros x p; simpl. rewrite lookup_insert, !Hrk. intros Hx Hne.
    destruct (decide (b = x)) as [<- |].
    + injection Hx as <-. rewrite (decide_False (P:=a = b)), decide_True by done. lia.
    + pose proof (inv_mono _ _ I _ _ Hx Hne).
      destruct (decide (a = x)) as [<- |]; [congruence |].
      case_decide as E; [rewrite <- E in H |]; lia.
  - intros x. rewrite Hrk. pose proof (inv_bound _ _ I x).
    pose proof (inv_bound _ _ I a). case_decide; lia.
Qed.

(** [union] on two members: it returns, it reports whether the two
    representatives differed, it only compresses when they did not, and
    afterwards the two elements share a representative. *)
Lemma union_spec B d fuel x y :
  inv B d → is_Some (parent d !! x) → is_Some (parent d !! y) → B < fuel →
  ∃ d' b rx ry,
    union fuel d x y = Some (d', b) ∧ root_of d x rx ∧ root_of d y ry
    ∧ inv (S B) d' ∧ b = bool_decide (rx ≠ ry)
    ∧ (rx = ry → compressed d d')
    ∧ same_component d' x y
    ∧ (∀ z, is_Some (parent d' !! z) ↔ is_Some (parent d !! z)).
Proof.
  intros I Hx Hy Hlt. unfold union.
  destruct (find_spec B d fuel x I Hx ltac:(lia)) as (d1 & rx & -> & Hrx & C1 & _).
  pose proof (compressed_inv _ _ _ I C1) as I1. simpl.
  destruct (find_spec B d1 fuel y I1) as (d2 & ry & -> & Hry & C2 & _);
    [by apply (cmp_dom _ _ C1) | lia |].
  pose proof (compressed_inv _ _ _ I1 C2) as I2. simpl.
  pose proof (inv_acyclic _ _ I) as A.
  pose proof (compressed_trans _ _ _ A C1 C2) as C.
  pose proof (compressed_root_inv _ _ _ _ A C1 Hry) as Hry0.
  pose proof (compressed_root _ _ _ _ C Hrx) as Hrx2.
  pose proof (compressed_root _ _ _ _ C2 Hry) as Hry2.
  pose proof (root_of_is_root _ _ _ Hrx2) as Rx.
  pose proof (root_of_is_root _ _ _ Hry2) as Ry.
  case_decide as Hne.
  - destruct (proj1 (inv_rank_dom _ _ I2 rx) ltac:(eauto)) as [k1 Hk1].
    destruct (proj1 (inv_rank_dom _ _ I2 ry) ltac:(eauto)) as [k2 Hk2].
    rewrite Hk1, Hk2. simpl.
    assert (rk d2 rx = k1) as Hr1 by (unfold rk; by rewrite Hk1).
    assert (rk d2 ry = k2) as Hr2 by (unfold rk; by rewrite Hk2).
    assert (Hdom : ∀ a b z, is_Some (parent d2 !! a) →
              is_Some (<[a:=b]> (parent d2) !! z) ↔ is_Some (parent d !! z)).
    { intros a b z Ha. rewrite <- (cmp_dom _ _ C). rewrite lookup_insert.
      case_decide; subst; [| done]. split; eauto. }
    destruct (k1 <? k2) eqn:L1; [| destruct (k2 <? k1) eqn:L2].
    + apply Nat.ltb_lt in L1.
      exists (set_parent d2 rx ry), true, rx, ry. split_and!; auto.
      * apply (inv_weaken B); [apply link_inv; auto; lia | lia].
      * by rewrite bool_decide_eq_true_2.
      * done.
      * exists ry. split.
        -- pose proof (link_root _ rx ry _ _ Rx Ry Hne Hrx2) as H.
           by rewrite decide_True in H.
        -- pose proof (link_root _ rx ry _ _ Rx Ry Hne Hry2) as H.
           by rewrite decide_False in H.
      * intros z. apply Hdom. eauto.
    + apply Nat.ltb_lt in L2.
      exists (set_parent d2 ry rx), true, rx, ry. split_and!; auto.
      * apply (inv_weaken B); [apply link_inv; auto; lia | lia].
      * by rewrite bool_decide_eq_true_2.
      * done.
      * exists rx. split.
        -- pose proof (link_root _ ry rx _ _ Ry Rx ltac:(auto) Hrx2) as H.
           by rewrite decide_False in H.
        -- pose proof (link_root _ ry rx _ _ Ry Rx ltac:(auto) Hry2) as H.
           by rewrite decide_True in H.
      * intros z. apply Hdom. eauto.
    + apply Nat.ltb_ge in L1, L2.
      exists (set_rank (set_parent d2 ry rx) rx (k1 + 1)), true, rx, ry.
      split_and!; auto.
      * apply link_inv_bump; auto; lia.
      * by rewrite bool_decide_eq_true_2.
      * done.
      * exists rx. split; apply (root_of_ext (set_parent d2 ry rx)); try done.
        -- pose proof (link_root _ ry rx _ _ Ry Rx ltac:(auto) Hrx2) as H.
           by rewrite decide_False in H.
        -- pose proof (link_root _ ry rx _ _ Ry Rx ltac:(auto) Hry2) as H.
           by rewrite decide_True in H.
      * intros z. simpl. apply Hdom. eauto.
  - subst ry.
    exists d2, false, rx, rx. split_and!; auto.
    + eapply inv_weaken; [done | lia].
    + by rewrite bool_decide_eq_false_2; [| auto].
    + by exists rx.
    + apply (cmp_dom _ _ C).
Qed.

Lemma init_parent_lookup l x :
  parent (init l) !! x = if decide (x ∈ l) then Some x else None.
Proof.
  unfold init; simpl. induction l as [| a l IH]; csimpl.
  - by rewrite lookup_empty.
  - rewrite lookup_insert, IH.
    destruct (decide (a = x)) as [-> |].
    + by rewrite decide_True by apply list_elem_of_here.
    + destruct (decide (x ∈ l)).
      * by rewrite decide_True by by apply list_elem_of_further.
      * rewrite decide_False; [done |].
        rewrite elem_of_cons. intros [? | ?]; [congruence | done].
Qed.

Lemma init_rank_lookup l x :
  rank (init l) !! x = if decide (x ∈ l) then Some 0 else None.
Proof.
  unfold init; simpl. induction l as [| a l IH]; csimpl.
  - by rewrite lookup_empty.
  - rewrite lookup_insert, IH.
    destruct (decide (a = x)) as [-> |].
    + by rewrite decide_True by apply list_elem_of_here.
    + destruct (decide (x ∈ l)).
      * by rewrite decide_True by by apply list_elem_of_further.
      * rewrite decide_False; [done |].
        rewrite elem_of_cons. intros [? | ?]; [congruence | done].
Qed.

Lemma init_inv l : inv 0 (init l).
Proof.
  split.
  - intros x. rewrite init_parent_lookup, init_rank_lookup.
    case_decide; [split; eauto | done].
  - intros x p. rewrite !init_parent_lookup.
    case_decide; [| done]. intros [= <-]. rewrite decide_True; eauto.
  - intros x p. rewrite init_parent_lookup. case_decide; congruence.
  - intros x. unfold rk. rewrite init_rank_lookup. by case_decide.
Qed.

(** Every reachable state satisfies the invariant for some rank bound,
    and its members are exactly the constructor's elements. *)
Lemma reachable_inv elements d :
  reachable elements d →
  ∃ B, inv B d ∧ ∀ z, is_Some (parent d !! z) ↔ z ∈ elements.
Proof.
  induction 1 as [| d fuel x d' r _ (B & I & M) Hx Hf
                  | d fuel x y d' b _ (B & I & M) Hx Hy Hu].
  - exists 0. split; [apply init_inv |].
    intros z. rewrite init_parent_lookup. case_decide; split; eauto; try done.
  - destruct (find_spec B d (fuel `max` S B) x I) as (d2 & r2 & E & _ & C & _);
      [by apply M | lia |].
    rewrite (find_mono _ _ _ _ _ Hf (Nat.le_max_l _ _)) in E. simplify_eq.
    exists B. split; [by eapply compressed_inv |].
    intros z. by rewrite (cmp_dom _ _ C).
  - destruct (union_spec B d (fuel `max` S B) x y I)
      as (d2 & b2 & rx & ry & E & _ & _ & I' & _ & _ & _ & D);
      [by apply M | by apply M | lia |].
    rewrite (union_mono _ _ _ _ _ _ Hu (Nat.le_max_l _ _)) in E. simplify_eq.
    exists (S B). split; [done |]. intros z. by rewrite D.
Qed.



(** C9.  On a reachable state and two members: [union] returns [True]
    exactly when the two elements were in different components; a second
    [union] of the same pair returns [False] and leaves every member with
    the representative it had after the first one. *)
Theorem union_twice elements d x y :
  reachable elements d → x ∈ elements → y ∈ elements →
  ∃ n, ∀ fuel, n ≤ fuel →
    ∃ d1 b1 d2 b2,
      union fuel d x y = Some (d1, b1)
      ∧ union fuel d1 x y = Some (d2, b2)
      ∧ b2 = false
      ∧ (∀ z r, z ∈ elements → root_of d2 z r ↔ root_of d1 z r)
      ∧ (b1 = true ↔ ¬ same_component d x y).
Proof.
  intros R Hx Hy. destruct (reachable_inv _ _ R) as (B & I & M).
  exists (S (S B)). intros fuel Hle.
  destruct (union_spec B d fuel x y I)
    as (d1 & b1 & rx & ry & E1 & Hrx & Hry & I1 & Hb1 & _ & S1 & D1);
    [by apply M | by apply M | lia |].
  destruct (union_spec (S B) d1 fuel x y I1)
    as (d2 & b2 & rx' & ry' & E2 & Hrx' & Hry' & I2 & Hb2 & C2 & _ & _);
    [apply D1; by apply M | apply D1; by apply M | lia |].
  destruct S1 as (r1 & Hx1 & Hy1).
  assert (rx' = ry') as Heq.
  { rewrite (root_of_det _ _ _ _ Hrx' Hx1). by eapply root_of_det. }
  specialize (C2 Heq).
  exists d1, b1, d2, b2. split_and!; auto.
  - subst b2. by apply bool_decide_eq_false_2; intros ?.
  - intros z r _. split.
    + eapply compressed_root_inv; [by eapply inv_acyclic | done].
    + by apply compressed_root.
  - subst b1. rewrite bool_decide_eq_true. split.
    + intros Hne (r & Hx0 & Hy0). apply Hne.
      rewrite (root_of_det _ _ _ _ Hrx Hx0). by eapply root_of_det.
    + intros Hn ->. apply Hn. by exists ry.
Qed.

Lemma union_twice_witness :
  ∃ n, ∀ fuel, n ≤ fuel →
    ∃ d1 b1 d2 b2,
      union fuel (init ["a"; "b"]) "a" "b" = Some (d1, b1)
      ∧ union fuel d1 "a" "b" = Some (d2, b2)
      ∧ b2 = false
      ∧ (∀ z r, z ∈ ["a"; "b"] → root_of d2 z r ↔ root_of d1 z r)
      ∧ (b1 = true ↔ ¬ same_component (init ["a"; "b"]) "a" "b").
Proof.
  apply (union_twice ["a"; "b"] (init ["a"; "b"]) "a" "b").
  - apply reach_init.
  - apply list_elem_of_here.
  - apply list_elem_of_further, list_elem_of_here.
Defined.

End DisjointSetFacts.

(** ** Facts about compute_hashes *)

Section ComputeHashesFacts.
Context {K V : Type} `{EqDecision K}.
Implicit Types (dict : list (K * list V)) (k : K) (v : V).

Lemma dict_get_append k k' v dict :
  dict_get k' (dict_append k v dict)
  = if decide (k = k') then Some (default [] (dict_get k dict) ++ [v])
    else dict_get k' dict.
Proof.
  induction dict as [| [k0 vs] dict IH]; simpl.
  - repeat case_decide; congruence.
  - destruct (decide (k0 = k)) as [-> | Hk0]; simpl.
    + repeat case_decide; congruence.
    + rewrite IH. repeat case_decide; congruence.
Qed.

Lemma dict_append_keys_in k v dict :
  k ∈ dict.*1 → (dict_append k v dict).*1 = dict.*1.
Proof.
  induction dict as [| [k0 vs] dict IH]; csimpl.
  - by intros ?%elem_of_nil.
  - intros Hin. destruct (decide (k0 = k)) as [-> | Hk0]; csimpl; [done |].
    rewrite IH; [done |].
    apply elem_of_cons in Hin as [? | ?]; [congruence | done].
Qed.

Lemma dict_append_keys_notin k v dict :
  k ∉ dict.*1 → (dict_append k v dict).*1 = dict.*1 ++ [k].
Proof.
  induction dict as [| [k0 vs] dict IH]; csimpl.
  - done.
  - intros Hin. apply not_elem_of_cons in Hin as [? ?].
    rewrite decide_False by done. csimpl. by rewrite IH.
Qed.

Lemma dict_append_NoDup k v dict :
  NoDup dict.*1 → NoDup (dict_append k v dict).*1.
Proof.
  intros H. destruct (decide (k ∈ dict.*1)).
  - by rewrite dict_append_keys_in.
  - rewrite dict_append_keys_notin by done.
    apply NoDup_app. split_and!; [done | | apply NoDup_singleton].
    intros x Hx ->%list_elem_of_singleton. done.
Qed.

Lemma dict_get_elem_of k vs dict :
  NoDup dict.*1 → (k, vs) ∈ dict ↔ dict_get k dict = Some vs.
Proof.
  induction dict as [| [k0 vs0] dict IH]; simpl; intros HN.
  - split; [by intros ?%elem_of_nil | done].
  - apply NoDup_cons in HN as [Hk0 HN]. rewrite elem_of_cons, IH by done.
    destruct (decide (k0 = k)) as [-> | Hne].
    + split; [| intros [= ->]; by left].
      intros [[= ->] | Hget]; [done |].
      exfalso. apply Hk0. apply IH in Hget; [| done].
      apply list_elem_of_fmap. by exists (k, vs).
    + split; [| by right]. intros [[= ? ?] | ?]; [congruence | done].
Qed.

End ComputeHashesFacts.

Lemma hash_loop_NoDup w image_paths hashes :
  NoDup hashes.*1 → NoDup (hash_loop w image_paths hashes).*1.
Proof.
  revert hashes. induction image_paths as [| p rest IH]; intros hashes H; simpl.
  - done.
  - destruct (phash w p); auto using dict_append_NoDup.
Qed.

Lemma hash_loop_get w image_paths hashes k :
  dict_get k (hash_loop w image_paths hashes)
  = if decide (bucket_of w k image_paths = []) then dict_get k hashes
    else Some (default [] (dict_get k hashes) ++ bucket_of w k image_paths).
Proof.
  unfold bucket_of.
  revert hashes. induction image_paths as [| p rest IH]; intros hashes; simpl.
  - done.
  - rewrite filter_cons. destruct (phash w p) as [h |] eqn:Hp.
    + rewrite IH, dict_get_append.
      destruct (decide (h = k)) as [-> | Hne].
      * destruct (decide (Some k = Some k)) as [_ |]; [| done].
        destruct (decide (p :: _ = [])); [done |].
        case_decide as E; simpl; [by rewrite E | by rewrite <- app_assoc].
      * destruct (decide (Some h = Some k)); [congruence | done].
    + destruct (decide (None = Some k)); [done | apply IH].
Qed.

(** C7.  The result of [compute_hashes] has one entry per perceptual hash
    shared by at least two decodable paths, and that entry lists exactly
    the decodable paths with this hash, in input order.  So every bucket
    has at least two paths, every path of a bucket has the bucket's hash, a
    path that fails to decode is in no bucket, and the other paths are
    processed all the same. *)
Theorem compute_hashes_buckets w image_paths :
  NoDup (compute_hashes w image_paths).*1
  ∧ (∀ k v, (k, v) ∈ compute_hashes w image_paths
            ↔ v = bucket_of w k image_paths ∧ 2 ≤ length v)
  ∧ (∀ k v p, (k, v) ∈ compute_hashes w image_paths → p ∈ v →
              p ∈ image_paths ∧ phash w p = Some k)
  ∧ (∀ k v p, (k, v) ∈ compute_hashes w image_paths → phash w p = None →
              p ∉ v).
Proof.
  assert (HN : NoDup (hash_loop w image_paths []).*1).
  { apply hash_loop_NoDup. constructor. }
  assert (Hiff : ∀ k v, (k, v) ∈ compute_hashes w image_paths
            ↔ v = bucket_of w k image_paths ∧ 2 ≤ length v).
  { intros k v. unfold compute_hashes. rewrite list_elem_of_filter. simpl.
    rewrite dict_get_elem_of, hash_loop_get by done. simpl.
    case_decide as E.
    - split; [by intros [_ ?] |]. intros [-> Hlen]. rewrite E in Hlen.
      simpl in Hlen. lia.
    - split.
      + intros [Hlen [= <-]]. split; [done | lia].
      + intros [-> Hlen]. split; [lia | done]. }
  split_and!; [| done | |].
  - unfold compute_hashes.
    eapply sublist_NoDup; [exact HN |]. apply fmap_sublist, sublist_filter.
  - intros k v p [-> _]%Hiff Hp. by apply list_elem_of_filter in Hp as [? ?].
  - intros k v p [-> _]%Hiff Hp Hin.
    apply list_elem_of_filter in Hin as [? ?]. congruence.
Qed.

Lemma compute_hashes_buckets_witness :
  (7%N, ["a.png"; "b.png"; "c.png"])
  ∈ compute_hashes Samples.full_scan ["a.png"; "b.png"; "c.png"].
Proof.
  apply (proj1 (proj2 (compute_hashes_buckets Samples.full_scan
                         ["a.png"; "b.png"; "c.png"]))).
  split; [reflexivity | simpl; lia].
Defined.

(** ** Facts about DuplicateFinderApp *)

Section AppFacts.
Import DuplicateFinderWorker DuplicateFinderApp Notions Samples.

Lemma targets_none g : targets None g = g.
Proof.
  unfold targets. induction g as [| p g IH]; [done |].
  rewrite filter_cons_True by done. by rewrite IH.
Qed.

Lemma targets_some keep g : targets (Some keep) g = filter (λ p, p ≠ keep) g.
Proof.
  unfold targets. induction g as [| p g IH]; [done |].
  rewrite !filter_cons, IH. repeat case_decide; congruence.
Qed.

Lemma find_item_Some objs refs g r :
  find_item objs refs g = Some r →
  r ∈ refs ∧ ∃ item, objs !! r = Some item ∧ paths item = g.
Proof.
  induction refs as [| r0 refs IH]; simpl; [done |].
  destruct (objs !! r0) as [item |] eqn:E.
  - case_decide.
    + intros [= <-]. split; [apply list_elem_of_here | eauto].
    + intros [? ?]%IH. split; [by apply list_elem_of_further | done].
  - intros [? ?]%IH. split; [by apply list_elem_of_further | done].
Qed.





(** C2 (fails on the code).  The identifier of a new group is the
    current length of [all_duplicates], which shrinks when a group is
    skipped or resolved: after two groups, a skip of the first and a third
    group, the third registered group has identifier 1 instead of 2, the
    identifier of the second group, which is still active. *)
Theorem third_group_reuses_identifier :
  id <$> objects (run_actions (init six_files ∅) skip_then_receive) = [0; 1; 1]
  ∧ active (run_actions (init six_files ∅) skip_then_receive)
    = [ {| id := 1; paths := ["b1"; "b2"]; gstatus := pending |};
        {| id := 1; paths := ["c1"; "c2"]; gstatus := pending |} ].
Proof. split; reflexivity. Qed.

(** C6 (fails on the code).  With the two active groups of the previous
    scenario sharing identifier 1, turning auto-delete on resolves the
    first of them and drops both from [all_duplicates]; the other one is
    then not found by [confirm_selection]: none of its files is removed
    and its status is still pending. *)
Theorem start_auto_delete_misses_group :
  let a := start_auto_delete (run_actions (init six_files ∅) skip_then_receive) in
  auto_delete_active a = true
  ∧ removals a = [("b2", true)]
  ∧ elements (files a) ≡ₚ ["a1"; "a2"; "b1"; "c1"; "c2"]
  ∧ objects a !! 2 = Some {| id := 1; paths := ["c1"; "c2"]; gstatus := pending |}
  ∧ all_duplicates a = [].
Proof.
  split_and!; try reflexivity.
  vm_compute. apply (bool_decide_unpack _). by vm_compute.
Qed.

(** A message with fewer than two paths registers nothing. *)
Lemma on_message_short group a :
  length group ≤ 1 → on_message (duplicate_group group) a = a.
Proof. intros H. simpl. rewrite decide_False; [done | lia]. Qed.

End AppFacts.

(** ** Facts about the clustering step *)

Section ClusterFacts.
Import DisjointSet DuplicateFinderWorker.

Lemma dict_append_elem {K V} `{EqDecision K} (k k' : K) (v : V) dict g' :
  (k', g') ∈ dict_append k v dict →
  (k', g') ∈ dict ∨ g' = [v] ∨ ∃ g, (k', g) ∈ dict ∧ g' = g ++ [v].
Proof.
  induction dict as [| [k0 vs] dict IH]; simpl.
  - intros [= _ ->]%list_elem_of_singleton. right; left. done.
  - case_decide.
    + intros [[= <- ->] | Hin]%elem_of_cons.
      * right; right. exists vs. split; [apply list_elem_of_here | done].
      * left. by apply list_elem_of_further.
    + intros [[= -> ->] | Hin]%elem_of_cons.
      * left. apply list_elem_of_here.
      * destruct (IH Hin) as [? | [? | (g & ? & ?)]].
        -- left. by apply list_elem_of_further.
        -- right; left. done.
        -- right; right. exists g. split; [by apply list_elem_of_further | done].
Qed.

(** Each list built by the grouping loop is a subsequence of the paths
    iterated so far. *)
Lemma group_by_root_sublist fuel d ps grouped grouped' seen :
  group_by_root fuel d ps grouped = Some grouped' →
  (∀ k g, (k, g) ∈ grouped → g `sublist_of` seen) →
  ∀ k g, (k, g) ∈ grouped' → g `sublist_of` seen ++ ps.
Proof.
  revert d grouped seen. induction ps as [| p ps IH]; intros d grouped seen; simpl.
  - intros [= <-] H. rewrite app_nil_r. done.
  - destruct (find fuel d p) as [[d' root] |]; [simpl | done].
    intros Hg H k g Hin. rewrite cons_middle, app_assoc.
    eapply IH; [done | | done].
    intros k' g' [Hold | [-> | (g0 & Hold & ->)]]%dict_append_elem.
    + apply sublist_inserts_r. by eapply H.
    + by apply sublist_inserts_l.
    + apply sublist_app; [by eapply H | done].
Qed.




(** Every group produced by [cluster] has at least two members, all
    distinct. *)
Lemma cluster_groups pairs groups :
  cluster pairs = Some groups →
  Forall (λ g, NoDup g ∧ 2 ≤ length g) groups.
Proof.
  unfold cluster.
  destruct (union_all _ _ pairs) as [d |]; [simpl | done].
  destruct (group_by_root _ d _ []) as [grouped |] eqn:E; [simpl | done].
  intros [= <-]. apply Forall_forall. intros g [Hlen Hin]%list_elem_of_filter.
  split; [| lia].
  apply list_elem_of_fmap in Hin as ([k g'] & -> & Hin). simpl.
  eapply sublist_NoDup; [apply (NoDup_elements (unique_paths pairs)) |].
  change (elements (unique_paths pairs)) with ([] ++ elements (unique_paths pairs)).
  eapply group_by_root_sublist; [done | | done].
  by intros ? ? ?%elem_of_nil.
Qed.

End ClusterFacts.

(** ** Facts about DuplicateFinderWorker *)

Section WorkerFacts.
Import DuplicateFinderWorker DuplicateFinderApp Notions Samples.

Lemma stopped_mono w k k' :
  k ≤ k' → stopped w k' = false → stopped w k = false.
Proof.
  unfold stopped. destruct (cancel_at w) as [t |]; [| done].
  rewrite !Nat.leb_gt. lia.
Qed.

Lemma halts_snoc_quiet tr e :
  halts_after_stop tr → quiet e → halts_after_stop (tr ++ [e]).
Proof.
  intros H Q pre post E.
  destruct post as [| x post _] using rev_ind; [constructor |].
  change (pre ++ EvPoll true :: post ++ [x])
    with (pre ++ (EvPoll true :: post) ++ [x]) in E.
  rewrite app_assoc in E. apply app_inj_tail in E as [E ->].
  apply Forall_app. split; [by eapply H | by constructor].
Qed.

Lemma halts_snoc_fresh tr e :
  EvPoll true ∉ tr → halts_after_stop (tr ++ [e]).
Proof.
  intros Hn pre post E.
  destruct post as [| x post _] using rev_ind; [constructor |].
  change (pre ++ EvPoll true :: post ++ [x])
    with (pre ++ (EvPoll true :: post) ++ [x]) in E.
  rewrite app_assoc in E. apply app_inj_tail in E as [E ->].
  exfalso. apply Hn. rewrite E. apply elem_of_app. right. apply list_elem_of_here.
Qed.

Lemma puts_snoc tr e :
  puts (tr ++ [e]) = puts tr ++ match e with EvPut m => [m] | _ => [] end.
Proof. unfold puts. rewrite omap_app. by destruct e. Qed.

Lemma done_count_app q1 q2 : done_count (q1 ++ q2) = done_count q1 + done_count q2.
Proof. unfold done_count. by rewrite filter_app, length_app. Qed.

(** Appending an event keeps the invariant when the event is quiet or no
    poll has seen the stop event yet, provided it is not itself a poll or a
    [done], and is a well-formed group if it is a group. *)
Lemma worker_inv_log w s e :
  worker_inv w s →
  quiet e ∨ live w s →
  (∀ b, e ≠ EvPoll b) → e ≠ EvPut done →
  (∀ g, e = EvPut (duplicate_group g) → NoDup g ∧ 2 ≤ length g) →
  worker_inv w (log e s).
Proof.
  intros [H1 H2 H3 H4] Hq Hp Hd Hg. split; simpl.
  - destruct Hq as [Hq | Hl]; [by apply halts_snoc_quiet |].
    apply halts_snoc_fresh; auto.
  - intros Hl [Hin | Hin%list_elem_of_singleton]%elem_of_app.
    + by apply H2.
    + by eapply Hp.
  - intros g [Hin | Hin%list_elem_of_singleton]%elem_of_app; auto.
  - rewrite puts_snoc, done_count_app, H4.
    destruct e as [[| |] | | |]; try done.
Qed.

Lemma worker_inv_status w s text :
  worker_inv w s → worker_inv w (put (status text) s).
Proof. intros I. apply worker_inv_log; try done. by left. Qed.

Lemma worker_inv_open w s p :
  worker_inv w s → live w s → worker_inv w (log (EvOpen p) s).
Proof. intros I L. apply worker_inv_log; try done. by right. Qed.

Lemma worker_inv_encode w s ps :
  worker_inv w s → live w s → worker_inv w (log (EvEncode ps) s).
Proof. intros I L. apply worker_inv_log; try done. by right. Qed.

Lemma worker_inv_group w s g :
  worker_inv w s → live w s → NoDup g → 2 ≤ length g →
  worker_inv w (put (duplicate_group g) s).
Proof.
  intros I L N G. apply worker_inv_log; try done; [by right |].
  by intros g' [= <-].
Qed.

(** A poll keeps the invariant; after a poll that saw the event clear, no
    poll has seen it set. *)
Lemma worker_inv_is_set w s b s' :
  worker_inv w s → is_set w s = (b, s') →
  worker_inv w s' ∧ clock s' = S (clock s)
  ∧ b = stopped w (clock s) ∧ (b = false → live w s').
Proof.
  intros [H1 H2 H3 H4]. unfold is_set. intros [= <- <-]. simpl.
  assert (HL : stopped w (clock s) = false →
               ∀ k, k < S (clock s) → stopped w k = false).
  { intros Hb k Hk. eapply stopped_mono; [| done]. lia. }
  split_and!; try done.
  split; simpl.
  - destruct (stopped w (clock s)) eqn:Hb; [by apply halts_snoc_quiet |].
    apply halts_snoc_fresh, H2. intros k Hk. apply HL; [done | lia].
  - intros L [Hin | Hin%list_elem_of_singleton]%elem_of_app.
    + apply H2; [| done]. intros k Hk. apply L. simpl. lia.
    + injection Hin as Hin. specialize (L (clock s)). simpl in L.
      rewrite L in Hin; [done | lia].
  - intros g [Hin | Hin%list_elem_of_singleton]%elem_of_app; auto. done.
  - by rewrite puts_snoc, app_nil_r.
Qed.

Lemma live_log w s e : live w s → live w (log e s).
Proof. done. Qed.

Lemma is_set_clock w s b s' :
  is_set w s = (b, s') → clock s' = S (clock s) ∧ b = stopped w (clock s).
Proof. unfold is_set. by intros [= <- <-]. Qed.

Lemma open_images_inv w ps valid s valid' s' :
  worker_inv w s → open_images w ps valid s = (valid', s') → worker_inv w s'.
Proof.
  revert valid s. induction ps as [| p ps IH]; intros valid s I; cbn [open_images].
  - by intros [= _ <-].
  - destruct (is_set w s) as [b s1] eqn:E.
    destruct (worker_inv_is_set _ _ _ _ I E) as (I1 & _ & _ & L).
    destruct b; [by intros [= _ <-] |].
    specialize (L eq_refl).
    pose proof (worker_inv_open _ _ p I1 L) as I2.
    destruct (can_open w p); by apply IH.
Qed.

(** The opening loop only moves the clock forward; when the poll that
    follows it still sees the event clear, it has gone through the whole
    bucket and kept exactly the paths that open. *)
Lemma open_images_spec w ps valid s valid' s' :
  open_images w ps valid s = (valid', s') →
  clock s ≤ clock s'
  ∧ length valid' ≤ length valid + length (filter (λ p, can_open w p = true) ps)
  ∧ (stopped w (clock s') = false →
     valid' = valid ++ filter (λ p, can_open w p = true) ps).
Proof.
  revert valid s. induction ps as [| p ps IH]; intros valid s; cbn [open_images].
  - intros [= <- <-]. rewrite app_nil_r. simpl. split_and!; auto; lia.
  - destruct (is_set w s) as [b s1] eqn:E.
    apply is_set_clock in E as [Hc ->]. rewrite filter_cons.
    destruct (stopped w (clock s)) eqn:Hb.
    + intros [= <- <-]. split_and!; [lia | lia |].
      intros Hn. apply (stopped_mono _ (clock s)) in Hn; [congruence | lia].
    + destruct (can_open w p) eqn:Hp.
      * intros (H1 & H2 & H3)%IH. simpl in H1. rewrite length_app in H2.
        rewrite decide_True by done. simpl in *.
        split_and!; [lia | lia |]. intros Hn. rewrite (H3 Hn).
        by rewrite <- app_assoc.
      * intros (H1 & H2 & H3)%IH. simpl in H1.
        rewrite decide_False by congruence.
        split_and!; [lia | lia | done].
Qed.

Lemma inner_loop_inv w cos valid i js pairs s pairs' s' :
  worker_inv w s → inner_loop w cos valid i js pairs s = (pairs', s') →
  worker_inv w s'.
Proof.
  revert pairs s. induction js as [| j js IH]; intros pairs s I; cbn [inner_loop].
  - by intros [= _ <-].
  - destruct (is_set w s) as [b s1] eqn:E.
    destruct (worker_inv_is_set _ _ _ _ I E) as (I1 & _ & _ & _).
    destruct b; [by intros [= _ <-] |]. by apply IH.
Qed.

Lemma inner_loop_spec w cos valid i js pairs s pairs' s' :
  inner_loop w cos valid i js pairs s = (pairs', s') →
  clock s ≤ clock s'
  ∧ (stopped w (clock s') = false → pairs' = pairs ++ row_pairs cos valid i js).
Proof.
  unfold row_pairs.
  revert pairs s. induction js as [| j js IH]; intros pairs s; cbn [inner_loop].
  - intros [= <- <-]. rewrite app_nil_r. auto.
  - destruct (is_set w s) as [b s1] eqn:E.
    apply is_set_clock in E as [Hc ->]. rewrite filter_cons.
    destruct (stopped w (clock s)) eqn:Hb.
    + intros [= <- <-]. split; [lia |].
      intros Hn. apply (stopped_mono _ (clock s)) in Hn; [congruence | lia].
    + intros (H1 & H2)%IH. split; [lia |]. intros Hn. rewrite (H2 Hn).
      destruct (Qle_bool threshold (cos i j)) eqn:Hq.
      * rewrite decide_True by done. csimpl. by rewrite <- app_assoc.
      * rewrite decide_False by congruence. done.
Qed.

Lemma outer_loop_inv w cos valid n rows pairs s pairs' s' :
  worker_inv w s → outer_loop w cos valid n rows pairs s = (pairs', s') →
  worker_inv w s'.
Proof.
  revert pairs s. induction rows as [| i rows IH]; intros pairs s I; cbn [outer_loop].
  - by intros [= _ <-].
  - destruct (inner_loop w cos valid i _ pairs s) as [pairs1 s1] eqn:E.
    apply IH. by eapply inner_loop_inv.
Qed.

Lemma outer_loop_spec w cos valid n rows pairs s pairs' s' :
  outer_loop w cos valid n rows pairs s = (pairs', s') →
  clock s ≤ clock s'
  ∧ (stopped w (clock s') = false →
     pairs' = pairs
              ++ (rows ≫= λ i, row_pairs cos valid i (seq (i + 1) (n - (i + 1))))).
Proof.
  revert pairs s. induction rows as [| i rows IH]; intros pairs s; cbn [outer_loop].
  - intros [= <- <-]. csimpl. rewrite app_nil_r. auto.
  - destruct (inner_loop w cos valid i _ pairs s) as [pairs1 s1] eqn:E.
    apply inner_loop_spec in E as [H1 H2].
    intros (H3 & H4)%IH. split; [lia |]. intros Hn.
    rewrite (H4 Hn), H2; [| eapply stopped_mono; [| done]; lia].
    csimpl. by rewrite <- app_assoc.
Qed.

Lemma score_pairs_spec w cos valid s pairs s' :
  score_pairs w cos valid s = (pairs, s') →
  clock s ≤ clock s'
  ∧ (stopped w (clock s') = false → pairs = threshold_pairs cos valid).
Proof. unfold score_pairs. intros H. by apply outer_loop_spec in H. Qed.

Lemma score_pairs_inv w cos valid s pairs s' :
  worker_inv w s → score_pairs w cos valid s = (pairs, s') → worker_inv w s'.
Proof. unfold score_pairs. intros I H. by eapply outer_loop_inv. Qed.

(** The four ways the similarity step of a bucket can end. *)
Lemma refine_cases w bucket s r s' :
  refine w bucket s = (r, s') →
  let valid := filter (λ p, can_open w p = true) bucket in
  r = RBreak
  ∨ (r = RContinue ∧ length valid < 2)
  ∨ (r = RRaise ∧ 2 ≤ length valid ∧ cos_scores w valid = None)
  ∨ (∃ cos, r = REdges valid (threshold_pairs cos valid)
            ∧ 2 ≤ length valid ∧ cos_scores w valid = Some cos).
Proof.
  unfold refine.
  destruct (is_set w s) as [b1 s1] eqn:E1.
  destruct b1; [intros [= <- _]; by left |].
  destruct (open_images w bucket [] s1) as [valid s2] eqn:E2.
  apply open_images_spec in E2 as (_ & _ & Hv).
  destruct (is_set w s2) as [b3 s3] eqn:E3.
  apply is_set_clock in E3 as [_ ->].
  destruct (stopped w (clock s2)) eqn:Hb; [intros [= <- _]; by left |].
  rewrite (Hv eq_refl). simpl.
  set (valid' := filter _ bucket).
  destruct (length valid' <? 2) eqn:Hlen.
  - apply Nat.ltb_lt in Hlen. intros [= <- _]. right; left. done.
  - apply Nat.ltb_ge in Hlen.
    destruct (cos_scores w valid') as [cos |] eqn:Hcos.
    + destruct (score_pairs w cos valid' _) as [pairs s4] eqn:E4.
      apply score_pairs_spec in E4 as [_ Hp].
      destruct (is_set w s4) as [b5 s5] eqn:E5.
      apply is_set_clock in E5 as [_ ->].
      destruct (stopped w (clock s4)) eqn:Hb4; [intros [= <- _]; by left |].
      intros [= <- _]. right; right; right. exists cos. by rewrite (Hp eq_refl).
    + intros [= <- _]. right; right; left. done.
Qed.


Lemma refine_inv w bucket s r s' :
  worker_inv w s → refine w bucket s = (r, s') →
  worker_inv w s' ∧ (r ≠ RBreak → live w s').
Proof.
  intros I. unfold refine.
  destruct (is_set w s) as [b1 s1] eqn:E1.
  destruct (worker_inv_is_set _ _ _ _ I E1) as (I1 & _ & _ & L1).
  destruct b1; [by intros [= <- <-] |].
  destruct (open_images w bucket [] s1) as [valid s2] eqn:E2.
  pose proof (open_images_inv _ _ _ _ _ _ I1 E2) as I2.
  destruct (is_set w s2) as [b3 s3] eqn:E3.
  destruct (worker_inv_is_set _ _ _ _ I2 E3) as (I3 & _ & _ & L3).
  destruct b3; [by intros [= <- <-] |]. specialize (L3 eq_refl).
  destruct (length valid <? 2); [by intros [= <- <-] |].
  pose proof (worker_inv_encode _ _ valid I3 L3) as I4.
  destruct (cos_scores w valid) as [cos |]; [| by intros [= <- <-]].
  destruct (score_pairs w cos valid _) as [pairs s4] eqn:E4.
  pose proof (score_pairs_inv _ _ _ _ _ _ I4 E4) as I5.
  destruct (is_set w s4) as [b5 s5] eqn:E5.
  destruct (worker_inv_is_set _ _ _ _ I5 E5) as (I6 & _ & _ & L6).
  destruct b5; [by intros [= <- <-] |]. intros [= <- <-]. auto.
Qed.

(** Nothing is put on the queue during the similarity step. *)
Lemma puts_is_set w s b s' : is_set w s = (b, s') → puts (trace s') = puts (trace s).
Proof. unfold is_set. intros [= _ <-]. simpl. by rewrite puts_snoc, app_nil_r. Qed.

Lemma puts_open_images w ps valid s valid' s' :
  open_images w ps valid s = (valid', s') → puts (trace s') = puts (trace s).
Proof.
  revert valid s. induction ps as [| p ps IH]; intros valid s; cbn [open_images].
  - by intros [= _ <-].
  - destruct (is_set w s) as [b s1] eqn:E. apply puts_is_set in E.
    destruct b; [intros [= _ <-]; done |].
    destruct (can_open w p); intros ->%IH; simpl;
      by rewrite puts_snoc, app_nil_r.
Qed.

Lemma puts_inner_loop w cos valid i js pairs s pairs' s' :
  inner_loop w cos valid i js pairs s = (pairs', s') →
  puts (trace s') = puts (trace s).
Proof.
  revert pairs s. induction js as [| j js IH]; intros pairs s; cbn [inner_loop].
  - by intros [= _ <-].
  - destruct (is_set w s) as [b s1] eqn:E. apply puts_is_set in E.
    destruct b; [intros [= _ <-]; done |]. by intros ->%IH.
Qed.

Lemma puts_outer_loop w cos valid n rows pairs s pairs' s' :
  outer_loop w cos valid n rows pairs s = (pairs', s') →
  puts (trace s') = puts (trace s).
Proof.
  revert pairs s. induction rows as [| i rows IH]; intros pairs s; cbn [outer_loop].
  - by intros [= _ <-].
  - destruct (inner_loop w cos valid i _ pairs s) as [pairs1 s1] eqn:E.
    apply puts_inner_loop in E. by intros ->%IH.
Qed.

Lemma puts_refine w bucket s r s' :
  refine w bucket s = (r, s') → puts (trace s') = puts (trace s).
Proof.
  unfold refine.
  destruct (is_set w s) as [b1 s1] eqn:E1. apply puts_is_set in E1.
  destruct b1; [intros [= _ <-]; done |].
  destruct (open_images w bucket [] s1) as [valid s2] eqn:E2.
  apply puts_open_images in E2.
  destruct (is_set w s2) as [b3 s3] eqn:E3. apply puts_is_set in E3.
  destruct b3; [intros [= _ <-]; congruence |].
  destruct (length valid <? 2); [intros [= _ <-]; congruence |].
  assert (E4 : puts (trace (log (EvEncode valid) s3)) = puts (trace s)).
  { simpl. rewrite puts_snoc, app_nil_r. congruence. }
  destruct (cos_scores w valid) as [cos |]; [| intros [= _ <-]; congruence].
  destruct (score_pairs w cos valid _) as [pairs s4] eqn:E5.
  apply puts_outer_loop in E5.
  destruct (is_set w s4) as [b5 s5] eqn:E6. apply puts_is_set in E6.
  destruct b5; intros [= _ <-]; congruence.
Qed.

Lemma threshold_pairs_elem cos valid p q :
  (p, q) ∈ threshold_pairs cos valid
  ↔ ∃ i j, i < j ∧ valid !! i = Some p ∧ valid !! j = Some q
           ∧ (threshold <= cos i j)%Q.
Proof.
  unfold threshold_pairs, row_pairs. rewrite list_elem_of_bind. split.
  - intros (i & Hin & Hi). apply list_elem_of_fmap in Hin as (j & [= -> ->] & Hj).
    apply list_elem_of_filter in Hj as [Hq Hj].
    apply elem_of_seq in Hi, Hj. apply Qle_bool_iff in Hq.
    exists i, j. split_and!; [lia | | | done].
    + apply list_lookup_lookup_total_lt. lia.
    + apply list_lookup_lookup_total_lt. lia.
  - intros (i & j & Hij & Hi & Hj & Hq).
    pose proof (lookup_lt_Some _ _ _ Hi). pose proof (lookup_lt_Some _ _ _ Hj).
    exists i. split; [| apply elem_of_seq; lia].
    apply list_elem_of_fmap. exists j. split.
    + by rewrite (list_lookup_total_correct _ _ _ Hi),
        (list_lookup_total_correct _ _ _ Hj).
    + apply list_elem_of_filter. split; [by apply Qle_bool_iff |].
      apply elem_of_seq. lia.
Qed.



Lemma put_groups_inv w groups s :
  worker_inv w s → live w s →
  Forall (λ g, NoDup g ∧ 2 ≤ length g) groups →
  worker_inv w (put_groups groups s).
Proof.
  unfold put_groups. revert s.
  induction groups as [| g groups IH]; intros s I L H; simpl; [done |].
  apply Forall_cons in H as [[N G] H].
  apply IH; [by apply worker_inv_group | done | done].
Qed.

Lemma buckets_loop_inv w buckets total s e total' s' :
  worker_inv w s → buckets_loop w buckets total s = (e, total', s') →
  worker_inv w s'.
Proof.
  revert total s. induction buckets as [| bucket rest IH]; intros total s I;
    cbn [buckets_loop].
  - by intros [= _ _ <-].
  - destruct (refine w bucket s) as [r s1] eqn:E.
    destruct (refine_inv _ _ _ _ _ I E) as [I1 L1].
    destruct r as [| | | valid pairs].
    + by intros [= _ _ <-].
    + by apply IH.
    + by intros [= _ _ <-].
    + destruct pairs as [| pq pairs]; [by apply IH |].
      destruct (cluster (pq :: pairs)) as [groups |] eqn:C;
        [| by intros [= _ _ <-]].
      apply IH, put_groups_inv; [done | by apply L1 | by eapply cluster_groups].
Qed.

Lemma elem_of_puts m tr : m ∈ puts tr ↔ EvPut m ∈ tr.
Proof.
  unfold puts. rewrite list_elem_of_omap. split.
  - intros ([] & Hin & [= ->]). done.
  - intros H. by exists (EvPut m).
Qed.

Lemma groups_ok_snoc tr e :
  groups_ok tr → (∀ g, e ≠ EvPut (duplicate_group g)) → groups_ok (tr ++ [e]).
Proof.
  intros H He g [Hin | Hin%list_elem_of_singleton]%elem_of_app; [auto |].
  by destruct (He g).
Qed.

Lemma closing_of_inv w s : worker_inv w s → closing s 0.
Proof. intros [H1 _ H3 H4]. done. Qed.

Lemma closing_put_status s n text :
  closing s n → closing (put (status text) s) n.
Proof.
  intros (H1 & H2 & H3). split_and!; simpl.
  - by apply halts_snoc_quiet.
  - by apply groups_ok_snoc.
  - rewrite puts_snoc, done_count_app, H3. simpl. unfold done_count. simpl. lia.
Qed.

Lemma closing_put_done s n : closing s n → closing (put done s) (S n).
Proof.
  intros (H1 & H2 & H3). split_and!; simpl.
  - by apply halts_snoc_quiet.
  - by apply groups_ok_snoc.
  - rewrite puts_snoc, done_count_app, H3. unfold done_count. simpl. lia.
Qed.

Lemma initial_inv w : worker_inv w {| clock := 0; trace := [] |}.
Proof.
  split; simpl.
  - intros pre post E. by destruct pre.
  - intros _ ?%elem_of_nil. done.
  - intros g ?%elem_of_nil. done.
  - done.
Qed.

(** The [try] block puts one [done] itself exactly when it is left by one
    of its three [return] statements. *)
Lemma run_try_closing w o s :
  run_try w {| clock := 0; trace := [] |} = (o, s) →
  closing s (match o with Returned => 1 | _ => 0 end).
Proof.
  unfold run_try.
  pose proof (worker_inv_status _ _ Phase1 (initial_inv w)) as I0.
  destruct (find_image_files w) as [[| p image_paths] |].
  - intros [= <- <-].
    by apply closing_put_done, closing_put_status, (closing_of_inv w).
  - set (paths := p :: image_paths).
    pose proof (worker_inv_status _ _ (FoundImages (length paths)) I0) as I1.
    pose proof (worker_inv_status _ _ Phase2 I1) as I2.
    pose proof (worker_inv_status _ _
      (Prefiltered (length (compute_hashes w paths))) I2) as I3.
    destruct (length (compute_hashes w paths) =? 0).
    + intros [= <- <-].
      by apply closing_put_done, closing_put_status, (closing_of_inv w).
    + pose proof (worker_inv_status _ _ Phase3 I3) as I4.
      destruct (buckets_loop w _ 0 _) as [[e total] s1] eqn:E.
      pose proof (buckets_loop_inv _ _ _ _ _ _ _ I4 E) as I5.
      destruct (is_set w s1) as [b s2] eqn:E2.
      destruct (worker_inv_is_set _ _ _ _ I5 E2) as (I6 & _).
      destruct e.
      * destruct b; intros [= <- <-].
        -- by apply closing_put_done, closing_put_status, (closing_of_inv w).
        -- by apply closing_put_status, (closing_of_inv w).
      * destruct b; intros [= <- <-].
        -- by apply closing_put_done, closing_put_status, (closing_of_inv w).
        -- by apply closing_put_status, (closing_of_inv w).
      * intros [= <- <-]. by apply (closing_of_inv w).
  - intros [= <- <-]. by apply (closing_of_inv w).
Qed.

Lemma run_closing w :
  closing (run w)
    (match (run_try w {| clock := 0; trace := [] |}).1 with
     | Returned => 2
     | _ => 1
     end).
Proof.
  unfold run.
  destruct (run_try w _) as [o s] eqn:E. apply run_try_closing in E.
  destruct o; simpl.
  - by apply closing_put_done.
  - by apply closing_put_done.
  - by apply closing_put_done, closing_put_status.
Qed.

(** The number of [done] messages of a run: one when the [try] block runs
    to its end or raises, two when it returns early. *)
Lemma run_done_count w :
  done_count (data_queue w)
  = match (run_try w {| clock := 0; trace := [] |}).1 with
    | Returned => 2
    | _ => 1
    end.
Proof. by destruct (run_closing w) as (_ & _ & H). Qed.

(** C1 (fails on the code).  For a directory without image files the
    worker puts [done] right before its [return], and the [finally] clause
    puts it again: the queue ends with two [done] messages.  The same
    happens when the run is cancelled. *)
Theorem run_puts_done_twice :
  data_queue empty_directory = [status Phase1; status NoImagesFound; done; done]
  ∧ done_count (data_queue empty_directory) = 2
  ∧ done_count (data_queue cancelled_scan) = 2.
Proof. split_and!; reflexivity. Qed.



(** C4.  Every [duplicate_group] message put by the worker carries at
    least two paths, all distinct; and the consumer registers nothing for a
    message with fewer than two paths. *)
Theorem emitted_groups_have_two_members w g :
  duplicate_group g ∈ data_queue w →
  NoDup g ∧ 2 ≤ length g
  ∧ ∀ a short, length short ≤ 1 → on_message (duplicate_group short) a = a.
Proof.
  intros Hin. destruct (run_closing w) as (_ & H & _).
  apply elem_of_puts in Hin. destruct (H g Hin) as [N G].
  split_and!; [done | done |]. intros a short. apply on_message_short.
Qed.

Lemma emitted_groups_have_two_members_witness :
  NoDup ["c.png"; "a.png"; "b.png"] ∧ 2 ≤ length ["c.png"; "a.png"; "b.png"]
  ∧ ∀ a short, length short ≤ 1 → on_message (duplicate_group short) a = a.
Proof.
  apply (emitted_groups_have_two_members full_scan).
  let q := eval vm_compute in (data_queue full_scan) in
  change (data_queue full_scan) with q.
  do 5 apply list_elem_of_further. apply list_elem_of_here.
Defined.

End WorkerFacts.

(** ** More facts about DisjointSet *)

Section DisjointSetMore.
Import DisjointSet.

Lemma same_component_roots d z w rz rw :
  root_of d z rz → root_of d w rw → same_component d z w ↔ rz = rw.
Proof.
  intros Hz Hw. split.
  - intros (r & H1 & H2).
    by rewrite (root_of_det _ _ _ _ Hz H1), (root_of_det _ _ _ _ Hw H2).
  - intros <-. by exists rz.
Qed.

(** [union] keeps or merges representatives: when the two roots differ,
    one of them (the loser) is hung under the other, and every element
    whose representative was the loser now has the winner. *)
Lemma union_roots B d fuel x y :
  inv B d → is_Some (parent d !! x) → is_Some (parent d !! y) → B < fuel →
  ∃ d' b rx ry loser winner,
    union fuel d x y = Some (d', b) ∧ root_of d x rx ∧ root_of d y ry
    ∧ ((rx = ry ∧ loser = winner)
       ∨ (rx ≠ ry ∧ ((loser = rx ∧ winner = ry) ∨ (loser = ry ∧ winner = rx))))
    ∧ ∀ z rz, root_of d z rz →
              root_of d' z (if decide (rz = loser) then winner else rz).
Proof.
  intros I Hx Hy Hlt. unfold union.
  destruct (find_spec B d fuel x I Hx ltac:(lia)) as (d1 & rx & -> & Hrx & C1 & _).
  pose proof (compressed_inv _ _ _ I C1) as I1. simpl.
  destruct (find_spec B d1 fuel y I1) as (d2 & ry & -> & Hry & C2 & _);
    [by apply (cmp_dom _ _ C1) | lia |].
  pose proof (compressed_inv _ _ _ I1 C2) as I2. simpl.
  pose proof (inv_acyclic _ _ I) as A.
  pose proof (compressed_trans _ _ _ A C1 C2) as C.
  pose proof (compressed_root_inv _ _ _ _ A C1 Hry) as Hry0.
  pose proof (root_of_is_root _ _ _ (compressed_root _ _ _ _ C Hrx)) as Rx.
  pose proof (root_of_is_root _ _ _ (compressed_root _ _ _ _ C2 Hry)) as Ry.
  case_decide as Hne.
  - destruct (proj1 (inv_rank_dom _ _ I2 rx) ltac:(eauto)) as [k1 Hk1].
    destruct (proj1 (inv_rank_dom _ _ I2 ry) ltac:(eauto)) as [k2 Hk2].
    rewrite Hk1, Hk2. simpl.
    destruct (k1 <? k2); [| destruct (k2 <? k1)].
    + exists (set_parent d2 rx ry), true, rx, ry, rx, ry.
      split_and!; auto.
      intros z rz Hz. apply link_root; auto. by apply (compressed_root _ _ _ _ C).
    + exists (set_parent d2 ry rx), true, rx, ry, ry, rx.
      split_and!; auto.
      intros z rz Hz. apply link_root; auto. by apply (compressed_root _ _ _ _ C).
    + exists (set_rank (set_parent d2 ry rx) rx (k1 + 1)), true, rx, ry, ry, rx.
      split_and!; auto.
      intros z rz Hz. apply (root_of_ext (set_parent d2 ry rx)); [done |].
      apply link_root; auto. by apply (compressed_root _ _ _ _ C).
  - subst ry. exists d2, false, rx, rx, rx, rx. split_and!; auto.
    intros z rz Hz. case_decide; subst; by apply (compressed_root _ _ _ _ C).
Qed.

(** After [union x y] two members are in one component exactly when they
    were before, or one was with [x] and the other with [y]. *)
Lemma union_components B d fuel x y :
  inv B d → is_Some (parent d !! x) → is_Some (parent d !! y) → B < fuel →
  ∃ d' b,
    union fuel d x y = Some (d', b) ∧ inv (S B) d'
    ∧ (∀ z, is_Some (parent d' !! z) ↔ is_Some (parent d !! z))
    ∧ ∀ z w, is_Some (parent d !! z) → is_Some (parent d !! w) →
        (same_component d' z w
         ↔ same_component d z w
           ∨ (same_component d z x ∧ same_component d w y)
           ∨ (same_component d z y ∧ same_component d w x)).
Proof.
  intros I Hx Hy Hlt.
  destruct (union_spec B d fuel x y I Hx Hy Hlt)
    as (d' & b & _ & _ & E & _ & _ & I' & _ & _ & _ & D).
  destruct (union_roots B d fuel x y I Hx Hy Hlt)
    as (d'' & b' & rx & ry & loser & winner & E' & Hrx & Hry & Hcase & T).
  rewrite E in E'. injection E' as <- <-.
  exists d', b. split_and!; [done | done | done |].
  intros z w Hz Hw.
  destruct (inv_acyclic _ _ I z Hz) as [rz Hrz].
  destruct (inv_acyclic _ _ I w Hw) as [rw Hrw].
  rewrite (same_component_roots _ _ _ _ _ (T _ _ Hrz) (T _ _ Hrw)).
  rewrite (same_component_roots _ _ _ _ _ Hrz Hrw).
  rewrite (same_component_roots _ _ _ _ _ Hrz Hrx).
  rewrite (same_component_roots _ _ _ _ _ Hrw Hry).
  rewrite (same_component_roots _ _ _ _ _ Hrz Hry).
  rewrite (same_component_roots _ _ _ _ _ Hrw Hrx).
  destruct Hcase as [[-> ->] | [Hne [[-> ->] | [-> ->]]]];
    repeat case_decide; split; intros; destruct_or?; destruct_and?;
    subst; auto; try congruence; tauto.
Qed.



(** X2.  On a reachable state, [union x y] of two members merges exactly
    the components of [x] and [y]: afterwards two members are in one
    component iff they already were, or one was in the component of [x]
    and the other in that of [y]; the members stay the same. *)
Theorem union_merges_components elements d x y :
  reachable elements d → x ∈ elements → y ∈ elements →
  ∃ n, ∀ fuel, n ≤ fuel →
    ∃ d' b, union fuel d x y = Some (d', b)
      ∧ (∀ z, is_Some (parent d' !! z) ↔ z ∈ elements)
      ∧ ∀ z w, z ∈ elements → w ∈ elements →
          (same_component d' z w
           ↔ same_component d z w
             ∨ (same_component d z x ∧ same_component d w y)
             ∨ (same_component d z y ∧ same_component d w x)).
Proof.
  intros R Hx Hy. destruct (reachable_inv _ _ R) as (B & I & M).
  exists (S B). intros fuel Hle.
  destruct (union_components B d fuel x y I) as (d' & b & E & _ & D & H);
    [by apply M | by apply M | lia |].
  exists d', b. split_and!; [done | |].
  - intros z. by rewrite D.
  - intros z w Hz Hw. apply H; by apply M.
Qed.

Lemma union_merges_components_witness :
  ∃ n, ∀ fuel, n ≤ fuel →
    ∃ d' b, union fuel (init ["a"; "b"; "c"]) "a" "c" = Some (d', b)
      ∧ (∀ z, is_Some (parent d' !! z) ↔ z ∈ ["a"; "b"; "c"])
      ∧ ∀ z w, z ∈ ["a"; "b"; "c"] → w ∈ ["a"; "b"; "c"] →
          (same_component d' z w
           ↔ same_component (init ["a"; "b"; "c"]) z w
             ∨ (same_component (init ["a"; "b"; "c"]) z "a"
                ∧ same_component (init ["a"; "b"; "c"]) w "c")
             ∨ (same_component (init ["a"; "b"; "c"]) z "c"
                ∧ same_component (init ["a"; "b"; "c"]) w "a")).
Proof.
  apply (union_merges_components ["a"; "b"; "c"] (init ["a"; "b"; "c"]) "a" "c").
  - apply reach_init.
  - apply list_elem_of_here.
  - do 2 apply list_elem_of_further. apply list_elem_of_here.
Defined.

Lemma find_sound B d fuel x d' r :
  inv B d → find fuel d x = Some (d', r) → root_of d x r ∧ compressed d d'.
Proof.
  intros I Hf.
  assert (Hx : is_Some (parent d !! x)).
  { destruct fuel; [done |]. simpl in Hf. destruct (parent d !! x); eauto. done. }
  destruct (find_spec B d (fuel `max` S B) x I Hx) as (d2 & r2 & E & Hr & C & _);
    [lia |].
  rewrite (find_mono _ _ _ _ _ Hf (Nat.le_max_l _ _)) in E. by simplify_eq.
Qed.

(** X3.  An element that was not given to the constructor is a missing
    key: on every reachable state [find] fails on it, and so does [union]
    as soon as one of its two arguments is such an element. *)
Theorem unknown_element_fails elements d x fuel :
  reachable elements d → x ∉ elements →
  find fuel d x = None
  ∧ (∀ y, union fuel d x y = None)
  ∧ (∀ y, union fuel d y x = None).
Proof.
  intros R Hx. destruct (reachable_inv _ _ R) as (B & I & M).
  assert (Hnone : ∀ d1, compressed d d1 → ∀ n, find n d1 x = None).
  { intros d1 C n.
    assert (E : parent d1 !! x = None).
    { apply eq_None_not_Some. intros H. by apply (cmp_dom _ _ C), M in H. }
    destruct n; [done |]. simpl. by rewrite E. }
  split_and!.
  - apply Hnone, compressed_refl.
  - intros y. unfold union. by rewrite (Hnone d (compressed_refl d)).
  - intros y. unfold union.
    destruct (find fuel d y) as [[d1 r1] |] eqn:E; [simpl | done].
    apply (find_sound B) in E as [_ C]; [| done]. by rewrite (Hnone d1 C).
Qed.

Lemma unknown_element_fails_witness :
  find 5 (init ["a"; "b"]) "z" = None
  ∧ (∀ y, union 5 (init ["a"; "b"]) "z" y = None)
  ∧ (∀ y, union 5 (init ["a"; "b"]) y "z" = None).
Proof.
  apply (unknown_element_fails ["a"; "b"] (init ["a"; "b"]) "z" 5).
  - apply reach_init.
  - intros H. apply elem_of_cons in H as [H | H]; [discriminate |].
    apply elem_of_cons in H as [H | H]; [discriminate |].
    by apply elem_of_nil in H.
Defined.

Lemma init_root l x r : root_of (init l) x r → r = x ∧ x ∈ l.
Proof.
  intros H. destruct H as [x Hx | x p r Hp Hne _];
    rewrite init_parent_lookup in *; case_decide; simplify_eq; done.
Qed.

(** X4.  A fresh structure is made of singletons, also when the list given
    to the constructor repeats an element: two elements are in one
    component only if they are equal, [find] answers the element itself
    and [union] of an element with itself answers [False], both without
    changing anything. *)
Theorem init_singletons l :
  (∀ x y, same_component (init l) x y ↔ x = y ∧ x ∈ l)
  ∧ (∀ x fuel, x ∈ l → find (S fuel) (init l) x = Some (init l, x))
  ∧ (∀ x fuel, x ∈ l → union (S fuel) (init l) x x = Some (init l, false)).
Proof.
  assert (F : ∀ x fuel, x ∈ l → find (S fuel) (init l) x = Some (init l, x)).
  { intros x fuel Hx. cbn [find]. rewrite init_parent_lookup.
    rewrite decide_True by done. simpl. by rewrite decide_True. }
  split_and!; [| done |].
  - intros x y. split.
    + intros (r & [-> ?]%init_root & [-> ?]%init_root). done.
    + intros [<- Hx]. exists x. split; apply root_here;
        rewrite init_parent_lookup; by rewrite decide_True.
  - intros x fuel Hx. unfold union. rewrite (F x fuel Hx). cbn -[find init].
    rewrite (F x fuel Hx). cbn -[find init]. by rewrite decide_False by auto.
Qed.

End DisjointSetMore.

(** ** More facts about the clustering step *)

Section ClusterMore.
Import DisjointSet DuplicateFinderWorker MoreNotions.

Lemma same_component_sym d x y : same_component d x y → same_component d y x.
Proof. intros (r & ? & ?). by exists r. Qed.

Lemma same_component_trans d x y z :
  same_component d x y → same_component d y z → same_component d x z.
Proof.
  intros (r & Hx & Hy) (r' & Hy' & Hz).
  rewrite <- (root_of_det _ _ _ _ Hy Hy') in Hz. by exists r.
Qed.

Lemma same_component_member d x y :
  same_component d x y → is_Some (parent d !! x) ∧ is_Some (parent d !! y).
Proof. intros (r & Hx & Hy). split; by eapply root_of_member. Qed.

Lemma same_component_refl B d x :
  inv B d → is_Some (parent d !! x) → same_component d x x.
Proof. intros I Hx. destruct (inv_acyclic _ _ I x Hx) as [r Hr]. by exists r. Qed.

(** A closure is included in an equivalence that contains its steps. *)
Lemma rtsc_into {A} (R E : relation A) x y :
  (∀ a b, E a b → E b a) → (∀ a b c, E a b → E b c → E a c) →
  (∀ a b, R a b → E a b) → E x x → rtsc R x y → E x y.
Proof.
  intros Hs Ht Hsub Hx H. induction H as [x | x y z Hxy _ IH]; [done |].
  assert (E x y) as Exy by (destruct Hxy; auto).
  apply (Ht _ y); [done |]. apply IH. apply (Ht _ x); auto.
Qed.

Lemma rtsc_mono_closure {A} (R1 R2 : relation A) x y :
  (∀ a b, R1 a b → rtsc R2 a b) → rtsc R1 x y → rtsc R2 x y.
Proof.
  intros Hsub H. induction H as [x | x y z Hxy _ IH]; [done |].
  etrans; [| exact IH]. destruct Hxy as [? | ?]; [auto | symmetry; auto].
Qed.

(** After the unions of all the pairs, two members are in one component
    exactly when a chain of earlier components and pairs joins them. *)
Lemma union_all_linked B d fuel pairs :
  inv B d →
  (∀ p q, (p, q) ∈ pairs → is_Some (parent d !! p) ∧ is_Some (parent d !! q)) →
  B + length pairs ≤ fuel →
  ∃ d', union_all fuel d pairs = Some d'
        ∧ inv (B + length pairs) d'
        ∧ (∀ z, is_Some (parent d' !! z) ↔ is_Some (parent d !! z))
        ∧ ∀ z w, is_Some (parent d !! z) → is_Some (parent d !! w) →
            (same_component d' z w
             ↔ rtsc (λ a b, same_component d a b ∨ (a, b) ∈ pairs) z w).
Proof.
  revert B d. induction pairs as [| [p q] pairs IH]; intros B d I M Hf; simpl.
  - exists d. rewrite Nat.add_0_r. split_and!; [done | done | done |].
    intros z w Hz Hw. split.
    + intros H. apply rtsc_lr. by left.
    + apply rtsc_into.
      * apply same_component_sym.
      * apply same_component_trans.
      * intros a b [? | ?%elem_of_nil]; done.
      * by eapply same_component_refl.
  - simpl in Hf.
    destruct (M p q) as [Hp Hq]; [apply list_elem_of_here |].
    destruct (union_components B d fuel p q I Hp Hq) as (d1 & ok & -> & I1 & D & H1);
      [lia |].
    simpl. destruct (IH (S B) d1 I1) as (d' & E & I' & D' & H'); [| lia |].
    { intros p' q' Hin. rewrite !D. apply M. by apply list_elem_of_further. }
    exists d'. split_and!; [done | | |].
    + by replace (B + S (length pairs)) with (S B + length pairs) by lia.
    + intros z. by rewrite D', D.
    + intros z w Hz Hw. rewrite H' by by apply D. split.
      * apply rtsc_mono_closure. intros a b [Hab | Hab].
        -- destruct (same_component_member _ _ _ Hab) as [Ha Hb].
           apply D in Ha, Hb.
           destruct (proj1 (H1 a b Ha Hb) Hab) as [? | [[? ?] | [? ?]]].
           ++ apply rtsc_lr. by left.
           ++ etrans; [apply rtsc_lr; by left |].
              etrans; [apply rtsc_lr; right; apply list_elem_of_here |].
              apply rtsc_rl. by left.
           ++ etrans; [apply rtsc_lr; by left |].
              etrans; [apply rtsc_rl; right; apply list_elem_of_here |].
              apply rtsc_rl. by left.
        -- apply rtsc_lr. right. by apply list_elem_of_further.
      * apply rtsc_mono_closure. intros a b [Hab | Hab].
        -- destruct (same_component_member _ _ _ Hab) as [Ha Hb].
           apply rtsc_lr. left. apply H1; auto.
        -- apply elem_of_cons in Hab as [[= -> ->] | Hab].
           ++ apply rtsc_lr. left. apply H1; [done | done |].
              right; left. split; by eapply same_component_refl.
           ++ apply rtsc_lr. by right.
Qed.

(** The grouping loop files every path under its representative. *)
Lemma group_by_root_spec B d fuel ps grouped grouped' seen :
  inv B d → group_by_root fuel d ps grouped = Some grouped' →
  NoDup grouped.*1 →
  (∀ r x, x ∈ default [] (dict_get r grouped) ↔ x ∈ seen ∧ root_of d x r) →
  NoDup grouped'.*1
  ∧ ∀ r x, x ∈ default [] (dict_get r grouped') ↔ x ∈ seen ++ ps ∧ root_of d x r.
Proof.
  revert d grouped seen. induction ps as [| p ps IH];
    intros d grouped seen I; simpl.
  - intros [= <-] HN H. rewrite app_nil_r. done.
  - destruct (find fuel d p) as [[d1 root] |] eqn:Ef; [simpl | done].
    destruct (find_sound _ _ _ _ _ _ I Ef) as [Hroot C].
    pose proof (compressed_inv _ _ _ I C) as I1.
    assert (Hsame : ∀ x r, root_of d1 x r ↔ root_of d x r).
    { intros x r. split.
      - apply compressed_root_inv; [by eapply inv_acyclic | done].
      - by apply compressed_root. }
    intros Hg HN H.
    destruct (IH d1 (dict_append root p grouped) (seen ++ [p]) I1 Hg) as [HN' H'].
    + by apply dict_append_NoDup.
    + intros r x. rewrite dict_get_append, Hsame, elem_of_app, list_elem_of_singleton.
      destruct (decide (root = r)) as [<- | Hne]; simpl.
      * rewrite elem_of_app, H, list_elem_of_singleton. split.
        -- intros [[? ?] | ->]; auto.
        -- intros [[? | ->] ?]; auto.
      * rewrite H. split.
        -- intros [? ?]; auto.
        -- intros [[? | ->] Hr]; [done |].
           destruct Hne. by eapply root_of_det.
    + split; [done |]. intros r x. rewrite H', Hsame, <- app_assoc. done.
Qed.

(** What [cluster] computes, in terms of the union-find it builds: the
    components are the link classes of the pairs, and the lists of
    [grouped] are the components. *)
Lemma cluster_inside pairs groups :
  cluster pairs = Some groups →
  ∃ d grouped,
    groups = filter (λ group, 1 < length group) grouped.*2
    ∧ NoDup grouped.*1
    ∧ (∀ r x, x ∈ default [] (dict_get r grouped)
              ↔ x ∈ unique_paths pairs ∧ root_of d x r)
    ∧ (∀ z w, z ∈ unique_paths pairs → w ∈ unique_paths pairs →
              same_component d z w ↔ linked pairs z w).
Proof.
  unfold cluster.
  set (unique := elements (unique_paths pairs)).
  assert (M : ∀ x, is_Some (parent (init unique) !! x) ↔ x ∈ unique_paths pairs).
  { intros x. rewrite init_parent_lookup. unfold unique.
    case_decide as Hx; rewrite elem_of_elements in Hx; split; eauto; try done. }
  destruct (union_all_linked 0 (init unique) (S (length pairs)) pairs)
    as (d & -> & I & D & L); [apply init_inv | | lia |].
  { intros p q Hin. rewrite !M. unfold unique_paths.
    rewrite !elem_of_list_to_set, !list_elem_of_bind.
    split; exists (p, q); (split; [| done]); simpl.
    - apply list_elem_of_here.
    - apply list_elem_of_further, list_elem_of_here. }
  simpl.
  destruct (group_by_root _ d unique []) as [grouped |] eqn:E; [simpl | done].
  intros [= <-]. exists d, grouped.
  destruct (group_by_root_spec _ _ _ _ _ _ [] I E) as [HN HG].
  { constructor. }
  { intros r x. simpl. split; [by intros ?%elem_of_nil |].
    by intros [?%elem_of_nil _]. }
  split_and!; [done | done | |].
  - intros r x. rewrite HG. simpl. unfold unique. by rewrite elem_of_elements.
  - intros z w Hz Hw. rewrite L by by apply M. unfold linked. split.
    + apply rtsc_mono_closure. intros a b [[-> _]%init_singletons | Hab].
      * done.
      * by apply rtsc_lr.
    + apply rtsc_mono_closure. intros a b Hab. apply rtsc_lr. by right.
Qed.

Lemma linked_members pairs x y :
  linked pairs x y → x ≠ y →
  x ∈ unique_paths pairs ∧ y ∈ unique_paths pairs.
Proof.
  assert (U : ∀ a b, sc (λ p q, (p, q) ∈ pairs) a b →
                     a ∈ unique_paths pairs ∧ b ∈ unique_paths pairs).
  { intros a b Hab. unfold unique_paths.
    rewrite !elem_of_list_to_set, !list_elem_of_bind.
    destruct Hab as [Hab | Hab]; split.
    - exists (a, b). split; [apply list_elem_of_here | done].
    - exists (a, b). split; [apply list_elem_of_further, list_elem_of_here | done].
    - exists (b, a). split; [apply list_elem_of_further, list_elem_of_here | done].
    - exists (b, a). split; [apply list_elem_of_here | done]. }
  intros H. induction H as [x | x y z Hxy Hyz IH]; [done |].
  intros Hne. destruct (U _ _ Hxy) as [Hx Hy]. split; [done |].
  destruct (decide (y = z)) as [<- | Hyz']; [done |]. by apply IH.
Qed.

Lemma cluster_group_key grouped (g : list path) :
  NoDup grouped.*1 →
  g ∈ filter (λ group : list path, 1 < length group) grouped.*2 →
  ∃ r : path, dict_get r grouped = Some g ∧ 1 < length g.
Proof.
  intros HN [Hlen Hin]%list_elem_of_filter.
  apply list_elem_of_fmap in Hin as ([r g'] & -> & Hin).
  exists r. split; [by apply dict_get_elem_of | done].
Qed.

(** X5.  The groups of [cluster] are the connected components of the
    pairs: two different paths are in one group exactly when a chain of
    pairs links them (so A-B and B-C put A and C together even when A-C is
    not a pair). *)
Theorem cluster_groups_are_components pairs groups x y :
  cluster pairs = Some groups → x ≠ y →
  linked pairs x y ↔ ∃ g, g ∈ groups ∧ x ∈ g ∧ y ∈ g.
Proof.
  intros (d & grouped & -> & HN & HG & HL)%cluster_inside Hne. split.
  - intros H. destruct (linked_members _ _ _ H Hne) as [Hx Hy].
    apply HL in H as (r & Hrx & Hry); [| done | done].
    assert (Hxg : x ∈ default [] (dict_get r grouped)) by by apply HG.
    assert (Hyg : y ∈ default [] (dict_get r grouped)) by by apply HG.
    destruct (dict_get r grouped) as [g |] eqn:Eg; [| by apply elem_of_nil in Hxg].
    simpl in *. exists g. split_and!; [| done | done].
    apply list_elem_of_filter. split.
    + destruct g as [| a [| b g]]; simpl; [by apply elem_of_nil in Hxg | | lia].
      apply list_elem_of_singleton in Hxg, Hyg. congruence.
    + apply list_elem_of_fmap. exists (r, g). split; [done |].
      by apply dict_get_elem_of.
  - intros (g & Hg & Hx & Hy).
    destruct (cluster_group_key _ _ HN Hg) as (r & Er & _).
    assert (Hxr : x ∈ unique_paths pairs ∧ root_of d x r).
    { apply HG. by rewrite Er. }
    assert (Hyr : y ∈ unique_paths pairs ∧ root_of d y r).
    { apply HG. by rewrite Er. }
    destruct Hxr as [Hxu Hxr], Hyr as [Hyu Hyr].
    apply HL; [done | done |]. by exists r.
Qed.

(** X6.  The groups of one [cluster] call do not overlap, and each of their
    paths is an end of one of the pairs. *)
Theorem cluster_groups_disjoint pairs groups g1 g2 x :
  cluster pairs = Some groups →
  g1 ∈ groups → g2 ∈ groups → x ∈ g1 → x ∈ g2 →
  g1 = g2 ∧ ∃ p q, (p, q) ∈ pairs ∧ (x = p ∨ x = q).
Proof.
  intros (d & grouped & -> & HN & HG & HL)%cluster_inside H1 H2 Hx1 Hx2.
  destruct (cluster_group_key _ _ HN H1) as (r1 & E1 & _).
  destruct (cluster_group_key _ _ HN H2) as (r2 & E2 & _).
  assert (Hr1 : x ∈ unique_paths pairs ∧ root_of d x r1).
  { apply HG. by rewrite E1. }
  assert (Hr2 : x ∈ unique_paths pairs ∧ root_of d x r2).
  { apply HG. by rewrite E2. }
  destruct Hr1 as [Hu Hr1], Hr2 as [_ Hr2].
  rewrite (root_of_det _ _ _ _ Hr1 Hr2) in E1. split; [congruence |].
  unfold unique_paths in Hu.
  apply elem_of_list_to_set, list_elem_of_bind in Hu as ([p q] & Hin & Hpq).
  exists p, q. split; [done |]. simpl in Hin.
  apply elem_of_cons in Hin as [-> | Hin]; [by left |].
  apply list_elem_of_singleton in Hin as ->. by right.
Qed.

Lemma cluster_groups_are_components_witness :
  linked [("a", "b"); ("b", "c"); ("d", "e")] "a" "c"
  ↔ ∃ g, g ∈ [["c"; "a"; "b"]; ["e"; "d"]] ∧ "a" ∈ g ∧ "c" ∈ g.
Proof.
  apply (cluster_groups_are_components
           [("a", "b"); ("b", "c"); ("d", "e")] [["c"; "a"; "b"]; ["e"; "d"]]).
  - reflexivity.
  - discriminate.
Defined.

Lemma cluster_groups_disjoint_witness :
  ["c"; "a"; "b"] = ["c"; "a"; "b"]
  ∧ ∃ p q, (p, q) ∈ [("a", "b"); ("b", "c"); ("d", "e")] ∧ ("b" = p ∨ "b" = q).
Proof.
  apply (cluster_groups_disjoint
           [("a", "b"); ("b", "c"); ("d", "e")] [["c"; "a"; "b"]; ["e"; "d"]]
           ["c"; "a"; "b"] ["c"; "a"; "b"] "b").
  - reflexivity.
  - apply list_elem_of_here.
  - apply list_elem_of_here.
  - do 2 apply list_elem_of_further. apply list_elem_of_here.
  - do 2 apply list_elem_of_further. apply list_elem_of_here.
Defined.

End ClusterMore.

(** ** More facts about compute_hashes and the worker *)

Section WorkerMore.
Import DuplicateFinderWorker Notions MoreNotions Samples.

Lemma compute_hashes_elem w image_paths k v :
  (k, v) ∈ compute_hashes w image_paths
  ↔ v = bucket_of w k image_paths ∧ 2 ≤ length v.
Proof.
  assert (HN : NoDup (hash_loop w image_paths []).*1).
  { apply hash_loop_NoDup. constructor. }
  unfold compute_hashes. rewrite list_elem_of_filter. simpl.
  rewrite dict_get_elem_of, hash_loop_get by done. simpl.
  case_decide as E.
  - split; [by intros [_ ?] |]. intros [-> Hlen]. rewrite E in Hlen.
    simpl in Hlen. lia.
  - split.
    + intros [Hlen [= <-]]. split; [done | lia].
    + intros [-> Hlen]. split; [lia | done].
Qed.

(** X7.  The buckets of [compute_hashes] keep the order of the input and do
    not overlap: a bucket is a subsequence of the input list, and a path
    that occurs in two entries of the result occurs in one and the same
    entry. *)
Theorem compute_hashes_buckets_disjoint w image_paths k1 v1 k2 v2 p :
  (k1, v1) ∈ compute_hashes w image_paths →
  (k2, v2) ∈ compute_hashes w image_paths →
  p ∈ v1 → p ∈ v2 →
  k1 = k2 ∧ v1 = v2 ∧ v1 `sublist_of` image_paths.
Proof.
  intros [-> _]%compute_hashes_elem [-> _]%compute_hashes_elem H1 H2.
  apply list_elem_of_filter in H1 as [H1 _], H2 as [H2 _].
  assert (k1 = k2) as -> by congruence.
  split_and!; [done | done | apply sublist_filter].
Qed.

Lemma compute_hashes_buckets_disjoint_witness :
  7%N = 7%N
  ∧ ["a.png"; "b.png"; "c.png"] = ["a.png"; "b.png"; "c.png"]
  ∧ ["a.png"; "b.png"; "c.png"] `sublist_of` ["a.png"; "b.png"; "c.png"].
Proof.
  apply (compute_hashes_buckets_disjoint full_scan ["a.png"; "b.png"; "c.png"]
           7%N ["a.png"; "b.png"; "c.png"] 7%N ["a.png"; "b.png"; "c.png"] "b.png").
  - apply list_elem_of_here.
  - apply list_elem_of_here.
  - apply list_elem_of_further, list_elem_of_here.
  - apply list_elem_of_further, list_elem_of_here.
Defined.

Lemma puts_put m s : puts (trace (put m s)) = puts (trace s) ++ [m].
Proof. simpl. by rewrite puts_snoc. Qed.

Lemma puts_put_groups gs s :
  puts (trace (put_groups gs s)) = puts (trace s) ++ (duplicate_group <$> gs).
Proof.
  unfold put_groups. revert s. induction gs as [| g gs IH]; intros s; simpl.
  - by rewrite app_nil_r.
  - rewrite IH, puts_put, <- app_assoc. done.
Qed.

Lemma cluster_group_members pairs groups g x :
  cluster pairs = Some groups → g ∈ groups → x ∈ g →
  ∃ p q, (p, q) ∈ pairs ∧ (x = p ∨ x = q).
Proof.
  unfold cluster.
  destruct (union_all _ _ pairs) as [d |]; [simpl | done].
  destruct (group_by_root _ d _ []) as [grouped |] eqn:E; [simpl | done].
  intros [= <-] [_ Hin]%list_elem_of_filter Hx.
  apply list_elem_of_fmap in Hin as ([k g'] & -> & Hin). simpl in Hx.
  assert (Hsub : g' `sublist_of` [] ++ elements (unique_paths pairs)).
  { eapply group_by_root_sublist; [done | | done]. by intros ? ? ?%elem_of_nil. }
  simpl in Hsub. apply (sublist_submseteq _ _) in Hsub.
  apply (elem_of_submseteq _ _ _ Hx) in Hsub.
  apply elem_of_elements in Hsub. unfold unique_paths in Hsub.
  apply elem_of_list_to_set, list_elem_of_bind in Hsub as ([p q] & Hpq & Hin').
  exists p, q. split; [done |]. simpl in Hpq.
  apply elem_of_cons in Hpq as [-> | Hpq]; [by left |].
  apply list_elem_of_singleton in Hpq as ->. by right.
Qed.

(** What the bucket loop puts on the queue: the groups it found, each made
    of paths of one bucket that could be opened, and nothing else; the
    running total is their number. *)
Lemma buckets_loop_puts w buckets total s e total' s' :
  buckets_loop w buckets total s = (e, total', s') →
  ∃ gs, puts (trace s') = puts (trace s) ++ (duplicate_group <$> gs)
        ∧ total' = total + length gs
        ∧ ∀ g, g ∈ gs →
            ∃ bucket, bucket ∈ buckets
                      ∧ ∀ p, p ∈ g → p ∈ bucket ∧ can_open w p = true.
Proof.
  revert total s. induction buckets as [| bucket rest IH]; intros total s;
    cbn [buckets_loop].
  - intros [= _ <- <-]. exists []. rewrite app_nil_r. simpl.
    split_and!; [done | lia |]. by intros g ?%elem_of_nil.
  - destruct (refine w bucket s) as [r s1] eqn:E.
    pose proof (puts_refine _ _ _ _ _ E) as P1.
    assert (Hrest : ∀ t s2, puts (trace s2) = puts (trace s) →
              buckets_loop w rest t s2 = (e, total', s') →
              t = total →
              ∃ gs, puts (trace s') = puts (trace s) ++ (duplicate_group <$> gs)
                ∧ total' = total + length gs
                ∧ ∀ g, g ∈ gs →
                    ∃ b, b ∈ bucket :: rest
                         ∧ ∀ p, p ∈ g → p ∈ b ∧ can_open w p = true).
    { intros t s2 P2 (gs & H1 & H2 & H3)%IH ->. exists gs. rewrite <- P2.
      split_and!; [done | done |]. intros g (b & Hb & Hg)%H3.
      exists b. split; [by apply list_elem_of_further | done]. }
    destruct (refine_cases _ _ _ _ _ E)
      as [-> | [[-> _] | [[-> _] | (cos & -> & _ & Hcos)]]].
    + intros [= _ <- <-]. exists []. rewrite app_nil_r. simpl.
      split_and!; [done | lia |]. by intros g ?%elem_of_nil.
    + intros H. by eapply Hrest.
    + intros [= _ <- <-]. exists []. rewrite app_nil_r. simpl.
      split_and!; [done | lia |]. by intros g ?%elem_of_nil.
    + set (valid := filter (λ p, can_open w p = true) bucket) in *.
      destruct (threshold_pairs cos valid) as [| pq pairs] eqn:Ep.
      { intros H. by eapply Hrest. }
      destruct (cluster (pq :: pairs)) as [groups |] eqn:C.
      * intros (gs & H1 & H2 & H3)%IH. exists (groups ++ gs).
        rewrite H1, puts_put_groups, P1, fmap_app, length_app, <- app_assoc.
        split_and!; [done | lia |].
        intros g [Hg | Hg]%elem_of_app.
        -- exists bucket. split; [apply list_elem_of_here |]. intros p Hp.
           destruct (cluster_group_members _ _ _ _ C Hg Hp) as (p1 & p2 & Hin & Hor).
           rewrite <- Ep in Hin.
           apply threshold_pairs_elem in Hin as (i & j & _ & Hi & Hj & _).
           assert (Hv : p ∈ valid).
           { destruct Hor as [-> | ->]; by eapply list_elem_of_lookup_2. }
           by apply list_elem_of_filter in Hv as [? ?].
        -- destruct (H3 g Hg) as (b & Hb & Hgb). exists b.
           split; [by apply list_elem_of_further | done].
      * intros [= _ <- <-]. exists []. rewrite app_nil_r. simpl.
        split_and!; [done | lia |]. by intros g ?%elem_of_nil.
Qed.

(** The queue of a run, case by case. *)
Lemma run_shape w :
  (find_image_files w = None
   ∧ data_queue w = [status Phase1; status ErrorDuringProcessing; done])
  ∨ (find_image_files w = Some []
     ∧ data_queue w = [status Phase1; status NoImagesFound; done; done])
  ∨ (∃ image_paths,
       find_image_files w = Some image_paths ∧ image_paths ≠ []
       ∧ compute_hashes w image_paths = []
       ∧ data_queue w
         = [status Phase1; status (FoundImages (length image_paths));
            status Phase2; status (Prefiltered 0);
            status NoPotentialDuplicates; done; done])
  ∨ (∃ image_paths gs ending,
       find_image_files w = Some image_paths ∧ image_paths ≠ []
       ∧ compute_hashes w image_paths ≠ []
       ∧ data_queue w
         = [status Phase1; status (FoundImages (length image_paths));
            status Phase2;
            status (Prefiltered (length (compute_hashes w image_paths)));
            status Phase3]
           ++ (duplicate_group <$> gs) ++ ending
       ∧ (ending = [status (Identified (length gs)); done]
          ∨ ending = [status WorkerStopped; done; done]
          ∨ ending = [status ErrorDuringProcessing; done])
       ∧ ∀ g, g ∈ gs →
           ∃ k v, (k, v) ∈ compute_hashes w image_paths
                  ∧ ∀ p, p ∈ g → p ∈ v ∧ can_open w p = true).
Proof.
  unfold data_queue, run, run_try.
  destruct (find_image_files w) as [[| p0 image_paths] |] eqn:Ef.
  - right; left. split; [done |]. reflexivity.
  - set (paths := p0 :: image_paths).
    destruct (compute_hashes w paths) as [| kv image_groups] eqn:Eh.
    + right; right; left. exists paths. split_and!; try done. 
    + right; right; right. simpl length at 2. cbn [Nat.eqb].
      destruct (buckets_loop w _ 0 _) as [[e total] s1] eqn:E.
      apply buckets_loop_puts in E as (gs & P1 & Ht & Hg). simpl in Ht.
      rewrite !puts_put in P1. simpl in P1.
      assert (Hmem : ∀ g, g ∈ gs →
                ∃ k v, (k, v) ∈ kv :: image_groups
                       ∧ ∀ p, p ∈ g → p ∈ v ∧ can_open w p = true).
      { intros g (b & Hb & Hgb)%Hg.
        apply list_elem_of_fmap in Hb as ([k v] & -> & Hin). eauto. }
      destruct (is_set w s1) as [b s2] eqn:E2.
      pose proof (puts_is_set _ _ _ _ E2) as P2.
      assert (Hcases :
        ∀ sfinal ending,
          puts (trace sfinal) = puts (trace s1) ++ ending →
          ending = [status (Identified (length gs)); done]
          ∨ ending = [status WorkerStopped; done; done]
          ∨ ending = [status ErrorDuringProcessing; done] →
          ∃ image_paths0 gs0 ending0,
            Some paths = Some image_paths0 ∧ image_paths0 ≠ []
            ∧ compute_hashes w image_paths0 ≠ []
            ∧ puts (trace sfinal)
              = [status Phase1; status (FoundImages (length image_paths0));
                 status Phase2;
                 status (Prefiltered (length (compute_hashes w image_paths0)));
                 status Phase3]
                ++ (duplicate_group <$> gs0) ++ ending0
            ∧ (ending0 = [status (Identified (length gs0)); done]
               ∨ ending0 = [status WorkerStopped; done; done]
               ∨ ending0 = [status ErrorDuringProcessing; done])
            ∧ ∀ g, g ∈ gs0 →
                ∃ k v, (k, v) ∈ compute_hashes w image_paths0
                       ∧ ∀ p, p ∈ g → p ∈ v ∧ can_open w p = true).
      { intros sfinal ending Hp He. exists paths, gs, ending. rewrite Eh.
        split_and!; try done. rewrite Hp, P1. reflexivity. }
      destruct e.
      * destruct b.
        -- apply (Hcases _ [status WorkerStopped; done; done]); [| auto].
           simpl. rewrite !puts_snoc, P2, <- !app_assoc. done.
        -- apply (Hcases _ [status (Identified (length gs)); done]); [| auto].
           simpl. rewrite !puts_snoc, P2, Ht, <- !app_assoc. done.
      * destruct b.
        -- apply (Hcases _ [status WorkerStopped; done; done]); [| auto].
           simpl. rewrite !puts_snoc, P2, <- !app_assoc. done.
        -- apply (Hcases _ [status (Identified (length gs)); done]); [| auto].
           simpl. rewrite !puts_snoc, P2, Ht, <- !app_assoc. done.
      * apply (Hcases _ [status ErrorDuringProcessing; done]); [| auto].
        simpl. rewrite !puts_snoc, <- !app_assoc. done.
  - left. split; [done |]. reflexivity.
Qed.

Lemma groups_of_app q1 q2 : groups_of (q1 ++ q2) = groups_of q1 ++ groups_of q2.
Proof. unfold groups_of. apply omap_app. Qed.

Lemma groups_of_fmap gs : groups_of (duplicate_group <$> gs) = gs.
Proof. induction gs as [| g gs IH]; [done |]. csimpl. by rewrite IH. Qed.

(** X8.  The protocol of the queue.  Every run sends
    [status Phase1] first and ends with one of five endings: the total and
    one [done]; the error report and one [done]; or the stop, no-image or
    no-candidate report followed by two [done].  No [done] occurs before
    the ending, so a consumer that stops at the first [done] has seen
    every group, and the total of the normal ending is the number of
    [duplicate_group] messages that were sent. *)
Theorem run_protocol w :
  ∃ body ending,
    data_queue w = status Phase1 :: body ++ ending
    ∧ (done ∉ body)
    ∧ (ending = [status (Identified (length (groups_of body))); done]
       ∨ ending = [status ErrorDuringProcessing; done]
       ∨ ending = [status WorkerStopped; done; done]
       ∨ ending = [status NoImagesFound; done; done]
       ∨ ending = [status NoPotentialDuplicates; done; done]).
Proof.
  destruct (run_shape w)
    as [[_ ->] | [[_ ->] | [(ps & _ & _ & _ & ->)
        | (ps & gs & ending & _ & _ & _ & -> & He & _)]]].
  - exists [], [status ErrorDuringProcessing; done].
    split_and!; [done | by intros ?%elem_of_nil | auto].
  - exists [], [status NoImagesFound; done; done].
    split_and!; [done | by intros ?%elem_of_nil | auto 6].
  - exists [status (FoundImages (length ps)); status Phase2; status (Prefiltered 0)],
      [status NoPotentialDuplicates; done; done].
    split_and!; [done | intros H; not_in_literal H | auto 6].
  - exists ([status (FoundImages (length ps)); status Phase2;
             status (Prefiltered (length (compute_hashes w ps))); status Phase3]
            ++ (duplicate_group <$> gs)), ending.
    split_and!.
    + by rewrite <- app_assoc.
    + intros [H | H]%elem_of_app; [not_in_literal H |].
      by apply list_elem_of_fmap in H as (g & ? & _).
    + rewrite groups_of_app, groups_of_fmap. simpl.
      destruct He as [-> | [-> | ->]]; auto.
Qed.

(** X9.  Only candidates are reported: every path of a [duplicate_group]
    message was found by [find_image_files], could be hashed, shares its
    perceptual hash with all the other paths of the group (they come from
    one bucket of [compute_hashes], of at least two paths), and could be
    opened again for the similarity step. *)
Theorem reported_paths_are_candidates w g :
  duplicate_group g ∈ data_queue w →
  ∃ image_paths k v,
    find_image_files w = Some image_paths
    ∧ (k, v) ∈ compute_hashes w image_paths
    ∧ 2 ≤ length v
    ∧ ∀ p, p ∈ g →
        p ∈ v ∧ p ∈ image_paths ∧ phash w p = Some k ∧ can_open w p = true.
Proof.
  intros Hin.
  destruct (run_shape w)
    as [[_ E] | [[_ E] | [(ps & _ & _ & _ & E)
        | (ps & gs & ending & Ef & _ & _ & E & He & Hg)]]];
    rewrite E in Hin; try (not_in_literal Hin).
  apply elem_of_app in Hin as [Hin | Hin]; [not_in_literal Hin |].
  apply elem_of_app in Hin as [Hin | Hin].
  - apply list_elem_of_fmap in Hin as (g' & [= <-] & Hin).
    destruct (Hg g Hin) as (k & v & Hkv & Hp).
    exists ps, k, v. split_and!; [done | done | |].
    + by apply compute_hashes_elem in Hkv as [_ ?].
    + intros p [Hv Ho]%Hp. split_and!; [done | | | done].
      * apply compute_hashes_elem in Hkv as [-> _].
        by apply list_elem_of_filter in Hv as [_ ?].
      * apply compute_hashes_elem in Hkv as [-> _].
        by apply list_elem_of_filter in Hv as [? _].
  - destruct He as [-> | [-> | ->]]; not_in_literal Hin.
Qed.

Lemma reported_paths_are_candidates_witness :
  ∃ image_paths k v,
    find_image_files full_scan = Some image_paths
    ∧ (k, v) ∈ compute_hashes full_scan image_paths
    ∧ 2 ≤ length v
    ∧ ∀ p, p ∈ ["c.png"; "a.png"; "b.png"] →
        p ∈ v ∧ p ∈ image_paths ∧ phash full_scan p = Some k
        ∧ can_open full_scan p = true.
Proof.
  apply (reported_paths_are_candidates full_scan).
  let q := eval vm_compute in (data_queue full_scan) in
  change (data_queue full_scan) with q.
  do 5 apply list_elem_of_further. apply list_elem_of_here.
Defined.




End WorkerMore.

(** ** More facts about DuplicateFinderApp *)

Section AppMore.
Import DuplicateFinderWorker DuplicateFinderApp Notions MoreNotions Samples.

Lemma with_fs_same a : with_fs (files a) (removals a) a = a.
Proof. by destruct a. Qed.

Lemma removed_app l1 l2 : removed (l1 ++ l2) = removed l1 ++ removed l2.
Proof. unfold removed. by rewrite filter_app, fmap_app. Qed.

(** The deletion loop changes the file system and nothing else: it logs one
    call per target, and the files that disappear are those of the
    successful calls, which existed and were not protected. *)
Lemma delete_loop_effect keep g n a n' a' :
  delete_loop keep g n a = (n', a') →
  ∃ new,
    a' = with_fs (files a ∖ list_to_set (removed new)) (removals a ++ new) a
    ∧ new.*1 = targets keep g
    ∧ n' = n + length (removed new)
    ∧ (∀ p, p ∈ new.*1 → p ∉ locked a → p ∉ files a ∖ list_to_set (removed new)).
Proof.
  revert n a. induction g as [| p g IH]; intros n a; simpl.
  - intros [= <- <-]. exists []. simpl. rewrite app_nil_r, difference_empty_L.
    split_and!; [by rewrite with_fs_same | done | lia |].
    by intros p ?%elem_of_nil.
  - unfold targets. rewrite filter_cons. fold (targets keep g).
    destruct (decide (Some p = keep)) as [E | E].
    + rewrite decide_False by auto. apply IH.
    + rewrite decide_True by done. unfold os_remove.
      destruct (decide (p ∈ files a ∧ p ∉ locked a)) as [[Hf Hl] | Hno].
      * intros (new & -> & H2 & -> & H4)%IH. simpl in *.
        exists ((p, true) :: new). unfold removed in *. csimpl.
        rewrite <- app_assoc. simpl.
        replace (files a ∖ {[p]} ∖ list_to_set (filter (λ x, x.2 = true) new).*1)
          with (files a ∖ ({[p]} ∪ list_to_set (filter (λ x, x.2 = true) new).*1))
          in * by (by rewrite difference_difference_l_L).
        split_and!; [done | by rewrite H2 | lia |].
        intros q [-> | Hq]%elem_of_cons Hlq.
        -- rewrite elem_of_difference, elem_of_union, elem_of_singleton. tauto.
        -- by apply H4.
      * intros (new & -> & H2 & -> & H4)%IH. simpl in *.
        exists ((p, false) :: new). unfold removed in *. csimpl.
        rewrite <- app_assoc. simpl.
        split_and!; [done | by rewrite H2 | reflexivity |].
        intros q [-> | Hq]%elem_of_cons Hlq.
        -- rewrite elem_of_difference. tauto.
        -- by apply H4.
Qed.

(** The state left by [confirm_selection], case by case: nothing changes
    (nothing displayed, or a path selected for a group that is not
    listed); or the targets are given to [os.remove] and the selection is
    cleared, and then either no entry matched (possible only without a
    selection) or the first matching entry is marked and every entry with
    its identifier leaves [all_duplicates]. *)
Lemma confirm_selection_cases a :
  (confirm_selection a = a
   ∧ (current_pair_paths a = None ∨ current_pair_paths a = Some []
      ∨ ∃ g keep, current_pair_paths a = Some g
                  ∧ selected_image_path a = Some keep
                  ∧ find_item (objects a) (all_duplicates a) g = None))
  ∨ ∃ g new objs' refs' btns',
      current_pair_paths a = Some g ∧ g ≠ []
      ∧ new.*1 = targets (selected_image_path a) g
      ∧ (∀ p, p ∈ new.*1 → p ∉ locked a →
              p ∉ files a ∖ list_to_set (removed new))
      ∧ confirm_selection a
        = {| objects := objs'; all_duplicates := refs';
             duplicate_buttons := btns';
             auto_delete_active := auto_delete_active a;
             found_groups_count := found_groups_count a;
             deleted_pictures_count :=
               deleted_pictures_count a + length (removed new);
             selected_image_path := None;
             current_pair_paths := None;
             files := files a ∖ list_to_set (removed new);
             locked := locked a;
             removals := removals a ++ new |}
      ∧ ((objs' = objects a ∧ refs' = all_duplicates a
          ∧ find_item (objects a) (all_duplicates a) g = None
          ∧ selected_image_path a = None)
         ∨ ∃ r item,
             find_item (objects a) (all_duplicates a) g = Some r
             ∧ objects a !! r = Some item ∧ paths item = g
             ∧ objs' = alter (mark (match selected_image_path a with
                                    | Some _ => kept_one
                                    | None => all_deleted
                                    end)) r (objects a)
             ∧ refs' = filter (λ r', entry_id objs' r' ≠ Some (id item))
                              (all_duplicates a)).
Proof.
  unfold confirm_selection.
  destruct (current_pair_paths a) as [[| p0 g0] |] eqn:Hc;
    [left; auto | | left; auto].
  set (g := p0 :: g0) in *.
  destruct (selected_image_path a) as [keep |] eqn:Hs.
  - destruct (find_item (objects a) (all_duplicates a) g) as [r |] eqn:Hf;
      [| left; split; [done |]; right; right; by exists g, keep].
    destruct (find_item_Some _ _ _ _ Hf) as (_ & item & Hitem & Hpaths).
    cbv zeta.
    replace (default 0 (entry_id (objects a) r)) with (id item)
      by (unfold entry_id; by rewrite Hitem).
    destruct (delete_loop (Some keep) g 0 (set_status r kept_one a))
      as [n1 a1] eqn:Hd.
    apply delete_loop_effect in Hd as (new & -> & H2 & -> & H4).
    right. exists g, new. eexists _, _, _.
    split_and!; [done | done | done | exact H4 | reflexivity |].
    right. exists r, item. split_and!; done.
  - destruct (delete_loop None g 0 a) as [n1 a1] eqn:Hd.
    apply delete_loop_effect in Hd as (new & -> & H2 & -> & H4). simpl.
    right. exists g, new.
    destruct (find_item (objects a) (all_duplicates a) g) as [r |] eqn:Hf.
    + destruct (find_item_Some _ _ _ _ Hf) as (_ & item & Hitem & Hpaths).
      replace (default 0 (entry_id (objects a) r)) with (id item)
        by (unfold entry_id; by rewrite Hitem).
      eexists _, _, _.
      split_and!; [done | done | done | exact H4 | reflexivity |].
      right. exists r, item. split_and!; done.
    + eexists _, _, _.
      split_and!; [done | done | done | exact H4 | reflexivity |].
      left. done.
Qed.

Lemma skip_group_cases a :
  (skip_group a = a
   ∧ (current_pair_paths a = None ∨ current_pair_paths a = Some []
      ∨ ∃ g, current_pair_paths a = Some g
             ∧ find_item (objects a) (all_duplicates a) g = None))
  ∨ ∃ g r item,
      current_pair_paths a = Some g
      ∧ find_item (objects a) (all_duplicates a) g = Some r
      ∧ objects a !! r = Some item ∧ paths item = g
      ∧ skip_group a
        = {| objects := alter (mark skipped) r (objects a);
             all_duplicates :=
               filter (λ r', entry_id (alter (mark skipped) r (objects a)) r'
                             ≠ Some (id item))
                      (all_duplicates a);
             duplicate_buttons := duplicate_buttons a ∖ {[id item]};
             auto_delete_active := auto_delete_active a;
             found_groups_count := found_groups_count a;
             deleted_pictures_count := deleted_pictures_count a;
             selected_image_path := None;
             current_pair_paths := None;
             files := files a;
             locked := locked a;
             removals := removals a |}.
Proof.
  unfold skip_group.
  destruct (current_pair_paths a) as [[| p0 g0] |] eqn:Hc;
    [left; auto | | left; auto].
  destruct (find_item (objects a) (all_duplicates a) (p0 :: g0)) as [r |] eqn:Hf;
    [| left; split; [done |]; right; right; by exists (p0 :: g0)].
  destruct (find_item_Some _ _ _ _ Hf) as (_ & item & Hitem & Hpaths).
  cbv zeta.
  replace (default 0 (entry_id (objects a) r)) with (id item)
    by (unfold entry_id; by rewrite Hitem).
  right. exists (p0 :: g0), r, item. split_and!; done.
Qed.

Lemma group_lists_mark st (r : nat) (objs : list entry) :
  paths <$> alter (mark st) r objs = paths <$> objs.
Proof.
  apply list_eq. intros i. rewrite !list_lookup_fmap.
  destruct (decide (r = i)) as [-> | Hne].
  - rewrite list_lookup_alter_eq. by destruct (objs !! i).
  - by rewrite list_lookup_alter_ne.
Qed.

(** Marking one entry and dropping the entries with its identifier leaves
    only untouched entries in the list. *)
Lemma pending_after_evict st (r : nat) item (objs : list entry)
    (refs : list nat) r' :
  objs !! r = Some item →
  (∀ r0, r0 ∈ refs → ∃ e, objs !! r0 = Some e ∧ gstatus e = pending) →
  r' ∈ filter (λ r0, entry_id (alter (mark st) r objs) r0 ≠ Some (id item)) refs →
  ∃ e, alter (mark st) r objs !! r' = Some e ∧ gstatus e = pending.
Proof.
  intros Hitem Hp [Hid Hin]%list_elem_of_filter.
  destruct (decide (r = r')) as [<- | Hne].
  - destruct Hid. unfold entry_id. by rewrite list_lookup_alter_eq, Hitem.
  - rewrite list_lookup_alter_ne by done. by apply Hp.
Qed.

Lemma targets_elem keep g p : p ∈ targets keep g → p ∈ g.
Proof. unfold targets. by intros [_ ?]%list_elem_of_filter. Qed.

(** [confirm_selection] keeps the invariant, registers nothing and leaves
    the auto-delete switch alone. *)
Lemma confirm_selection_ok fs0 a :
  app_ok fs0 a →
  app_ok fs0 (confirm_selection a)
  ∧ group_lists (confirm_selection a) = group_lists a
  ∧ auto_delete_active (confirm_selection a) = auto_delete_active a.
Proof.
  intros [H1 H2 H3 H4 H5 H6 H7].
  destruct (confirm_selection_cases a)
    as [[-> _] | (g & new & objs' & refs' & btns' & Hc & _ & Hn & _ & -> & Hcase)];
    [done |].
  assert (Hobjs : paths <$> objs' = paths <$> objects a ∧ length objs' = length (objects a)
                  ∧ ∀ r, r ∈ refs' → ∃ e, objs' !! r = Some e ∧ gstatus e = pending).
  { destruct Hcase as [(-> & -> & _) | (r & item & _ & Hitem & _ & -> & ->)].
    - done.
    - split_and!; [apply group_lists_mark | apply length_alter |].
      intros r'. by apply pending_after_evict. }
  destruct Hobjs as (Hgl & Hlen & Hpend).
  unfold group_lists in *. simpl. split_and!; [| done | done].
  split; unfold group_lists; simpl.
  - rewrite removed_app, length_app. lia.
  - rewrite removed_app, list_to_set_app_L, H2.
    by rewrite difference_difference_l_L.
  - lia.
  - done.
  - intros p b [Hin | Hin]%elem_of_app; rewrite Hgl.
    + by eapply H5.
    + exists g. split; [by apply H6 |].
      apply (targets_elem (selected_image_path a)). rewrite <- Hn.
      apply list_elem_of_fmap. by exists (p, b).
  - done.
  - rewrite Hgl. done.
Qed.

Lemma skip_group_ok fs0 a :
  app_ok fs0 a →
  app_ok fs0 (skip_group a)
  ∧ group_lists (skip_group a) = group_lists a
  ∧ auto_delete_active (skip_group a) = auto_delete_active a.
Proof.
  intros [H1 H2 H3 H4 H5 H6 H7].
  destruct (skip_group_cases a)
    as [[-> _] | (g & r & item & _ & _ & Hitem & _ & ->)]; [done |].
  unfold group_lists in *. simpl. rewrite group_lists_mark.
  split_and!; [| done | done].
  split; unfold group_lists; simpl; try done.
  - by rewrite length_alter.
  - intros r'. by apply pending_after_evict.
  - by rewrite group_lists_mark.
  - by rewrite group_lists_mark.
Qed.

Lemma with_selection_ok fs0 sel cur a :
  app_ok fs0 a → (∀ g, cur = Some g → g ∈ group_lists a) →
  app_ok fs0 (with_selection sel cur a).
Proof. intros [H1 H2 H3 H4 H5 H6 H7] Hc. by split. Qed.

Lemma find_by_id_Some objs refs i item :
  find_by_id objs refs i = Some item → item ∈ objs ∧ id item = i.
Proof.
  induction refs as [| r refs IH]; simpl; [done |].
  destruct (objs !! r) as [item' |] eqn:E; [| done].
  case_decide; [| done].
  intros [= <-]. split; [by eapply list_elem_of_lookup_2 | done].
Qed.

Lemma received_cons act acts : received (act :: acts) = received [act] ++ received acts.
Proof. unfold received. csimpl. by rewrite app_nil_r. Qed.

Lemma on_message_ok fs0 m a :
  app_ok fs0 a →
  app_ok fs0 (on_message m a)
  ∧ group_lists (on_message m a) = group_lists a ++ received [Receive m]
  ∧ auto_delete_active (on_message m a) = auto_delete_active a.
Proof.
  intros Ha. unfold received. csimpl. rewrite app_nil_r.
  destruct m as [text | g |]; simpl; [by rewrite app_nil_r | | by rewrite app_nil_r].
  destruct (decide (1 < length g)) as [Hlen | Hlen]; [| by rewrite app_nil_r].
  destruct Ha as [H1 H2 H3 H4 H5 H6 H7].
  set (e := {| id := length (all_duplicates a); paths := g; gstatus := pending |}).
  set (a1 := with_counts _ _ (with_groups (objects a ++ [e]) _ a)).
  assert (Hgl : group_lists a1 = group_lists a ++ [g]).
  { unfold group_lists. simpl. by rewrite fmap_app. }
  assert (Ha1 : app_ok fs0 a1).
  { split; simpl; try done.
    - rewrite length_app. simpl. lia.
    - intros r [Hr | ->%list_elem_of_singleton]%elem_of_app.
      + destruct (H4 r Hr) as (e0 & He0 & Hp). exists e0. split; [| done].
        by apply lookup_app_l_Some.
      + exists e. split; [| done]. by rewrite list_lookup_middle.
    - intros p b (g0 & Hg0 & Hp)%H5. exists g0. rewrite Hgl.
      split; [| done]. apply elem_of_app. by left.
    - intros g0 Hg0%H6. rewrite Hgl. apply elem_of_app. by left.
    - intros g0. rewrite Hgl.
      intros [Hg0 | ->%list_elem_of_singleton]%elem_of_app; auto. }
  destruct (auto_delete_active a) eqn:Hauto.
  - destruct (confirm_selection_ok fs0
                (with_selection (head g) (Some g) a1)) as (Hok & Hg & Hau).
    + apply with_selection_ok; [done |].
      intros g0 [= <-]. rewrite Hgl. apply elem_of_app. right.
      apply list_elem_of_here.
    + split_and!; [done | by rewrite Hg | by rewrite Hau].
  - split_and!; [| done | done].
    destruct Ha1 as [K1 K2 K3 K4 K5 K6 K7]. by split.
Qed.

Lemma auto_delete_loop_ok fs0 snapshot a :
  app_ok fs0 a →
  app_ok fs0 (auto_delete_loop snapshot a)
  ∧ group_lists (auto_delete_loop snapshot a) = group_lists a
  ∧ auto_delete_active (auto_delete_loop snapshot a) = auto_delete_active a.
Proof.
  revert a. induction snapshot as [| r rest IH]; intros a Ha; simpl; [done |].
  destruct (objects a !! r) as [item |] eqn:Hitem; [| by apply IH].
  destruct (gstatus item); try by apply IH.
  destruct (paths item) as [| first others] eqn:Hp; [done |].
  destruct (confirm_selection_ok fs0
              (with_selection (Some first) (Some (first :: others)) a))
    as (Hok & Hg & Hau).
  - apply with_selection_ok; [done |]. intros g [= <-]. rewrite <- Hp.
    apply list_elem_of_fmap. exists item. split; [done |].
    by eapply list_elem_of_lookup_2.
  - destruct (IH _ Hok) as (Hok' & Hg' & Hau').
    split_and!; [done | by rewrite Hg', Hg | by rewrite Hau', Hau].
Qed.

(** Every action keeps the invariant, and only a received group of at
    least two paths is registered. *)
Lemma step_ok fs0 a act :
  app_ok fs0 a →
  app_ok fs0 (step a act)
  ∧ group_lists (step a act) = group_lists a ++ received [act].
Proof.
  intros Ha. destruct act as [m | i | p | | | |]; simpl.
  - destruct (on_message_ok fs0 m a Ha) as (? & ? & _). done.
  - unfold received. csimpl. rewrite !app_nil_r.
    unfold display_selected_group.
    destruct (find_by_id _ _ i) as [item |] eqn:E; [| done].
    apply find_by_id_Some in E as [Hin _]. split; [| done].
    apply with_selection_ok; [done |]. intros g [= <-].
    apply list_elem_of_fmap. by exists item.
  - unfold received. csimpl. rewrite !app_nil_r. split; [| done].
    apply with_selection_ok; [done |]. apply (ok_current _ _ Ha).
  - unfold received. csimpl. rewrite !app_nil_r.
    destruct (confirm_selection_ok fs0 a Ha) as (? & ? & _). done.
  - unfold received. csimpl. rewrite !app_nil_r.
    destruct (skip_group_ok fs0 a Ha) as (? & ? & _). done.
  - unfold received. csimpl. rewrite !app_nil_r. unfold start_auto_delete.
    destruct (auto_delete_loop_ok fs0 (all_duplicates (with_auto true a))
                (with_auto true a)) as (? & ? & _); [| done].
    destruct Ha as [H1 H2 H3 H4 H5 H6 H7]. by split.
  - unfold received. csimpl. rewrite !app_nil_r. split; [| done].
    destruct Ha as [H1 H2 H3 H4 H5 H6 H7]. by split.
Qed.

Lemma init_ok fs0 lk : app_ok fs0 (init fs0 lk).
Proof.
  split; simpl; try done.
  - by rewrite difference_empty_L.
  - by intros r ?%elem_of_nil.
  - by intros p b ?%elem_of_nil.
  - by intros g ?%elem_of_nil.
Qed.

Lemma run_actions_ok fs0 a acts :
  app_ok fs0 a →
  app_ok fs0 (run_actions a acts)
  ∧ group_lists (run_actions a acts) = group_lists a ++ received acts.
Proof.
  unfold run_actions. revert a.
  induction acts as [| act acts IH]; intros a Ha; cbn [foldl].
  - unfold received. csimpl. by rewrite app_nil_r.
  - destruct (step_ok fs0 a act Ha) as [Ha' Hg].
    destruct (IH _ Ha') as [Hok Hg'].
    split; [done |]. rewrite Hg', Hg. rewrite (received_cons act acts).
    by rewrite <- app_assoc.
Qed.

Lemma run_from_init_ok fs0 lk acts :
  app_ok fs0 (run_actions (init fs0 lk) acts)
  ∧ group_lists (run_actions (init fs0 lk) acts) = received acts.
Proof.
  destruct (run_actions_ok fs0 (init fs0 lk) acts (init_ok fs0 lk)) as [Hok Hg].
  split; [done |]. by rewrite Hg.
Qed.

(** X11.  The two counters are exact.  After any sequence of actions from
    the initial state, [found_groups_count] is the number of received
    groups of at least two paths, and [deleted_pictures_count] is the
    number of [os.remove] calls that succeeded. *)
Theorem counters_are_exact fs0 lk acts :
  found_groups_count (run_actions (init fs0 lk) acts) = length (received acts)
  ∧ deleted_pictures_count (run_actions (init fs0 lk) acts)
    = length (removed (removals (run_actions (init fs0 lk) acts)))
  ∧ length (objects (run_actions (init fs0 lk) acts)) = length (received acts).
Proof.
  destruct (run_from_init_ok fs0 lk acts) as [Hok Hg].
  assert (Hlen : length (objects (run_actions (init fs0 lk) acts))
                 = length (received acts)).
  { rewrite <- Hg. unfold group_lists. by rewrite length_fmap. }
  split_and!; [| apply (ok_count _ _ Hok) | done].
  by rewrite (ok_found _ _ Hok).
Qed.

(** X12.  The application only ever deletes, and only what it was told
    about: after any sequence of actions, the files on disk are the
    initial ones minus those of the successful [os.remove] calls, and every
    path given to [os.remove] belongs to a received group of at least two
    paths. *)
Theorem only_reported_files_are_removed fs0 lk acts :
  files (run_actions (init fs0 lk) acts)
  = fs0 ∖ list_to_set (removed (removals (run_actions (init fs0 lk) acts)))
  ∧ ∀ p b, (p, b) ∈ removals (run_actions (init fs0 lk) acts) →
           ∃ g, g ∈ received acts ∧ p ∈ g ∧ 1 < length g.
Proof.
  destruct (run_from_init_ok fs0 lk acts) as [Hok Hg].
  split; [apply (ok_files _ _ Hok) |].
  intros p b (g & Hin & Hp)%(ok_targets _ _ Hok).
  exists g. split_and!; [by rewrite <- Hg | done | by apply (ok_sizes _ _ Hok)].
Qed.

(** X13.  A file that is in no received group is never touched: whatever
    the actions, it is never given to [os.remove] and, if it was on disk
    at the start, it still is. *)
Theorem unrelated_file_survives fs0 lk acts p :
  (∀ g, g ∈ received acts → p ∉ g) →
  (∀ b, (p, b) ∉ removals (run_actions (init fs0 lk) acts))
  ∧ (p ∈ fs0 → p ∈ files (run_actions (init fs0 lk) acts)).
Proof.
  intros Hno.
  destruct (run_from_init_ok fs0 lk acts) as [Hok Hg].
  assert (Hnr : ∀ b, (p, b) ∉ removals (run_actions (init fs0 lk) acts)).
  { intros b (g & Hin & Hp)%(ok_targets _ _ Hok). rewrite Hg in Hin.
    by apply (Hno g). }
  split; [done |]. intros Hp. rewrite (ok_files _ _ Hok).
  apply elem_of_difference. split; [done |].
  intros Hin%elem_of_list_to_set. unfold removed in Hin.
  apply list_elem_of_fmap in Hin as ([q b] & -> & [_ Hin]%list_elem_of_filter).
  by apply (Hnr b).
Qed.

Lemma unrelated_file_survives_witness :
  (∀ b, ("a1", b) ∉ removals (run_actions (init six_files ∅)
                                [Receive (duplicate_group ["b1"; "b2"]);
                                 Display 0; Confirm]))
  ∧ ("a1" ∈ six_files →
     "a1" ∈ files (run_actions (init six_files ∅)
                     [Receive (duplicate_group ["b1"; "b2"]);
                      Display 0; Confirm])).
Proof.
  apply (unrelated_file_survives six_files ∅
           [Receive (duplicate_group ["b1"; "b2"]); Display 0; Confirm] "a1").
  intros g Hg Hin.
  apply list_elem_of_singleton in Hg as ->.
  apply elem_of_cons in Hin as [Hin | Hin]; [discriminate |].
  apply list_elem_of_singleton in Hin. discriminate.
Defined.

(** X14.  Resolved and skipped groups are evicted: after any sequence of
    actions every reference of [all_duplicates] points to an entry, and
    every listed entry is still pending. *)
Theorem active_entries_are_pending fs0 lk acts :
  length (active (run_actions (init fs0 lk) acts))
  = length (all_duplicates (run_actions (init fs0 lk) acts))
  ∧ ∀ e, e ∈ active (run_actions (init fs0 lk) acts) → gstatus e = pending.
Proof.
  destruct (run_from_init_ok fs0 lk acts) as [Hok _].
  pose proof (ok_pending _ _ Hok) as Hp. unfold active.
  set (a := run_actions (init fs0 lk) acts) in *. clearbody a. clear Hok.
  split.
  - induction (all_duplicates a) as [| r refs IH]; [done |]. csimpl.
    destruct (Hp r) as (e & -> & _); [apply list_elem_of_here |]. simpl.
    f_equal. apply IH. intros r' Hr'. apply Hp. by apply list_elem_of_further.
  - intros e (r & Hr & He)%list_elem_of_omap.
    destruct (Hp r Hr) as (e' & He' & Hpend). congruence.
Qed.

Lemma find_by_id_ref objs refs i item :
  find_by_id objs refs i = Some item →
  ∃ r, r ∈ refs ∧ objs !! r = Some item.
Proof.
  induction refs as [| r refs IH]; simpl; [done |].
  destruct (objs !! r) as [item' |] eqn:E.
  - case_decide.
    + intros [= <-]. exists r. split; [apply list_elem_of_here | done].
    + intros (r' & ? & ?)%IH. exists r'. split; [by apply list_elem_of_further | done].
  - intros (r' & ? & ?)%IH. exists r'. split; [by apply list_elem_of_further | done].
Qed.

Lemma find_item_exists objs refs r0 item :
  r0 ∈ refs → objs !! r0 = Some item →
  ∃ r, find_item objs refs (paths item) = Some r.
Proof.
  induction refs as [| r refs IH]; simpl; [by intros ?%elem_of_nil |].
  intros [-> | Hin]%elem_of_cons Hitem.
  - rewrite Hitem. rewrite decide_True by done. eauto.
  - destruct (objs !! r) as [item' |]; [case_decide |]; eauto.
Qed.

Lemma removed_sub new q : q ∈ removed new → q ∈ new.*1.
Proof.
  unfold removed.
  intros ([q' b] & -> & [_ Hin]%list_elem_of_filter)%list_elem_of_fmap.
  apply list_elem_of_fmap. by exists (q', b).
Qed.

(** What a resolution of a displayed group does, with or without a
    selected path. *)
Lemma resolution_effect a g r :
  current_pair_paths a = Some g → g ≠ [] →
  find_item (objects a) (all_duplicates a) g = Some r →
  ∃ new e,
    removals (confirm_selection a) = removals a ++ new
    ∧ new.*1 = targets (selected_image_path a) g
    ∧ files (confirm_selection a) = files a ∖ list_to_set (removed new)
    ∧ (∀ q, q ∈ new.*1 → q ∉ locked a → q ∉ files (confirm_selection a))
    ∧ deleted_pictures_count (confirm_selection a)
      = deleted_pictures_count a + length (removed new)
    ∧ r ∈ all_duplicates a ∧ (r ∉ all_duplicates (confirm_selection a))
    ∧ objects (confirm_selection a) !! r = Some e
    ∧ paths e = g
    ∧ gstatus e = match selected_image_path a with
                  | Some _ => kept_one
                  | None => all_deleted
                  end
    ∧ current_pair_paths (confirm_selection a) = None
    ∧ selected_image_path (confirm_selection a) = None
    ∧ auto_delete_active (confirm_selection a) = auto_delete_active a
    ∧ ∀ r', r' ∈ all_duplicates (confirm_selection a) → r' ∈ all_duplicates a.
Proof.
  intros Hc Hne Hf.
  destruct (confirm_selection_cases a)
    as [[_ [Hn | [Hn | (g0 & keep & Hn & _ & Hn')]]]
       | (g0 & new & objs' & refs' & btns' & Hc' & _ & Hn & Hgone & -> & Hcase)];
    try congruence.
  assert (g0 = g) as -> by congruence.
  destruct Hcase as [(_ & _ & Hf' & _) | (r' & item & Hf' & Hitem & Hp & -> & ->)];
    [congruence |].
  assert (r' = r) as -> by congruence.
  exists new, (mark (match selected_image_path a with
                     | Some _ => kept_one
                     | None => all_deleted
                     end) item).
  simpl. split_and!; try done.
  - by apply find_item_Some in Hf as [? _].
  - intros [Hid _]%list_elem_of_filter. apply Hid. unfold entry_id.
    by rewrite list_lookup_alter_eq, Hitem.
  - by rewrite list_lookup_alter_eq, Hitem.
  - by intros r' [_ ?]%list_elem_of_filter.
Qed.

(** X15.  Keep one.  Displaying a listed group, clicking one of its paths
    and confirming gives every other path of the group to [os.remove], in
    order; the clicked path stays on disk, every other path that is not
    protected is gone, the counter grows by the number of successes, and
    the entry is marked [kept_one] and leaves the list. *)
Theorem keep_one_resolution a i item p :
  find_by_id (objects a) (all_duplicates a) i = Some item → p ∈ paths item →
  ∃ new r e,
    removals (run_actions a [Display i; Select p; Confirm]) = removals a ++ new
    ∧ new.*1 = filter (λ q, q ≠ p) (paths item)
    ∧ (p ∈ files a → p ∈ files (run_actions a [Display i; Select p; Confirm]))
    ∧ (∀ q, q ∈ paths item → q ≠ p → q ∉ locked a →
            q ∉ files (run_actions a [Display i; Select p; Confirm]))
    ∧ deleted_pictures_count (run_actions a [Display i; Select p; Confirm])
      = deleted_pictures_count a + length (removed new)
    ∧ r ∈ all_duplicates a
    ∧ (r ∉ all_duplicates (run_actions a [Display i; Select p; Confirm]))
    ∧ objects (run_actions a [Display i; Select p; Confirm]) !! r = Some e
    ∧ paths e = paths item ∧ gstatus e = kept_one.
Proof.
  intros Hfind Hp. simpl. unfold display_selected_group. rewrite Hfind.
  set (a2 := select_image_to_keep p _).
  destruct (find_by_id_ref _ _ _ _ Hfind) as (r0 & Hr0 & Hitem).
  destruct (find_item_exists _ _ _ _ Hr0 Hitem) as [r Hr].
  destruct (resolution_effect a2 (paths item) r)
    as (new & e & H1 & H2 & H3 & H4 & H5 & H6 & H7 & H8 & H9 & H10 & _);
    [done | by intros E; rewrite E in Hp; apply elem_of_nil in Hp | done |].
  simpl in *. rewrite targets_some in H2.
  exists new, r, e. split_and!; try done.
  - intros Hin. rewrite H3. apply elem_of_difference. split; [done |].
    intros Hq%elem_of_list_to_set%removed_sub. rewrite H2 in Hq.
    by apply list_elem_of_filter in Hq as [? _].
  - intros q Hq Hne Hl. apply H4; [| done]. rewrite H2.
    by apply list_elem_of_filter.
Qed.

Lemma keep_one_resolution_witness :
  ∃ new r e,
    removals (run_actions (run_actions (init six_files ∅) skip_then_receive)
                [Display 1; Select "b2"; Confirm])
    = removals (run_actions (init six_files ∅) skip_then_receive) ++ new
    ∧ new.*1 = filter (λ q, q ≠ "b2") ["b1"; "b2"]
    ∧ ("b2" ∈ files (run_actions (init six_files ∅) skip_then_receive) →
       "b2" ∈ files (run_actions (run_actions (init six_files ∅) skip_then_receive)
                       [Display 1; Select "b2"; Confirm]))
    ∧ (∀ q, q ∈ ["b1"; "b2"] → q ≠ "b2" →
            q ∉ locked (run_actions (init six_files ∅) skip_then_receive) →
            q ∉ files (run_actions (run_actions (init six_files ∅) skip_then_receive)
                         [Display 1; Select "b2"; Confirm]))
    ∧ deleted_pictures_count
        (run_actions (run_actions (init six_files ∅) skip_then_receive)
           [Display 1; Select "b2"; Confirm])
      = deleted_pictures_count (run_actions (init six_files ∅) skip_then_receive)
        + length (removed new)
    ∧ r ∈ all_duplicates (run_actions (init six_files ∅) skip_then_receive)
    ∧ (r ∉ all_duplicates
             (run_actions (run_actions (init six_files ∅) skip_then_receive)
                [Display 1; Select "b2"; Confirm]))
    ∧ objects (run_actions (run_actions (init six_files ∅) skip_then_receive)
                 [Display 1; Select "b2"; Confirm]) !! r = Some e
    ∧ paths e = ["b1"; "b2"] ∧ gstatus e = kept_one.
Proof.
  apply (keep_one_resolution
           (run_actions (init six_files ∅) skip_then_receive) 1
           {| id := 1; paths := ["b1"; "b2"]; gstatus := pending |} "b2").
  - reflexivity.
  - apply list_elem_of_further, list_elem_of_here.
Defined.

(** X16.  Delete all.  Displaying a listed group and confirming without a
    click gives every path of the group to [os.remove]; every path that is
    not protected is gone, and the entry is marked [all_deleted] and leaves
    the list. *)
Theorem delete_all_resolution a i item :
  find_by_id (objects a) (all_duplicates a) i = Some item → paths item ≠ [] →
  ∃ new r e,
    removals (run_actions a [Display i; Confirm]) = removals a ++ new
    ∧ new.*1 = paths item
    ∧ (∀ q, q ∈ paths item → q ∉ locked a →
            q ∉ files (run_actions a [Display i; Confirm]))
    ∧ deleted_pictures_count (run_actions a [Display i; Confirm])
      = deleted_pictures_count a + length (removed new)
    ∧ r ∈ all_duplicates a
    ∧ (r ∉ all_duplicates (run_actions a [Display i; Confirm]))
    ∧ objects (run_actions a [Display i; Confirm]) !! r = Some e
    ∧ paths e = paths item ∧ gstatus e = all_deleted.
Proof.
  intros Hfind Hne. simpl. unfold display_selected_group. rewrite Hfind.
  set (a2 := with_selection None _ a).
  destruct (find_by_id_ref _ _ _ _ Hfind) as (r0 & Hr0 & Hitem).
  destruct (find_item_exists _ _ _ _ Hr0 Hitem) as [r Hr].
  destruct (resolution_effect a2 (paths item) r)
    as (new & e & H1 & H2 & H3 & H4 & H5 & H6 & H7 & H8 & H9 & H10 & _);
    [done | done | done |].
  simpl in *. rewrite targets_none in H2.
  exists new, r, e. split_and!; try done.
  intros q Hq Hl. apply H4; [by rewrite H2 | done].
Qed.

Lemma delete_all_resolution_witness :
  ∃ new r e,
    removals (run_actions (run_actions (init six_files ∅) skip_then_receive)
                [Display 1; Confirm])
    = removals (run_actions (init six_files ∅) skip_then_receive) ++ new
    ∧ new.*1 = ["b1"; "b2"]
    ∧ (∀ q, q ∈ ["b1"; "b2"] →
            q ∉ locked (run_actions (init six_files ∅) skip_then_receive) →
            q ∉ files (run_actions (run_actions (init six_files ∅) skip_then_receive)
                         [Display 1; Confirm]))
    ∧ deleted_pictures_count
        (run_actions (run_actions (init six_files ∅) skip_then_receive)
           [Display 1; Confirm])
      = deleted_pictures_count (run_actions (init six_files ∅) skip_then_receive)
        + length (removed new)
    ∧ r ∈ all_duplicates (run_actions (init six_files ∅) skip_then_receive)
    ∧ (r ∉ all_duplicates
             (run_actions (run_actions (init six_files ∅) skip_then_receive)
                [Display 1; Confirm]))
    ∧ objects (run_actions (run_actions (init six_files ∅) skip_then_receive)
                 [Display 1; Confirm]) !! r = Some e
    ∧ paths e = ["b1"; "b2"] ∧ gstatus e = all_deleted.
Proof.
  apply (delete_all_resolution
           (run_actions (init six_files ∅) skip_then_receive) 1
           {| id := 1; paths := ["b1"; "b2"]; gstatus := pending |}).
  - reflexivity.
  - discriminate.
Defined.

(** X17.  Skip.  Displaying a listed group and skipping it touches no
    file and calls [os.remove] for nothing; the entry is marked [skipped]
    and leaves the list, and the viewer is cleared. *)
Theorem skip_resolution a i item :
  find_by_id (objects a) (all_duplicates a) i = Some item → paths item ≠ [] →
  ∃ r e,
    files (run_actions a [Display i; Skip]) = files a
    ∧ removals (run_actions a [Display i; Skip]) = removals a
    ∧ deleted_pictures_count (run_actions a [Display i; Skip])
      = deleted_pictures_count a
    ∧ r ∈ all_duplicates a
    ∧ (r ∉ all_duplicates (run_actions a [Display i; Skip]))
    ∧ objects (run_actions a [Display i; Skip]) !! r = Some e
    ∧ paths e = paths item ∧ gstatus e = skipped
    ∧ current_pair_paths (run_actions a [Display i; Skip]) = None.
Proof.
  intros Hfind Hne. simpl. unfold display_selected_group. rewrite Hfind.
  set (a2 := with_selection None _ a).
  destruct (find_by_id_ref _ _ _ _ Hfind) as (r0 & Hr0 & Hitem).
  destruct (find_item_exists _ _ _ _ Hr0 Hitem) as [r Hr].
  destruct (skip_group_cases a2)
    as [[_ [Hn | [Hn | (g0 & Hn & Hn')]]]
       | (g0 & r' & item' & Hc & Hf & Hitem' & Hp & ->)].
  - done.
  - simpl in Hn. congruence.
  - simpl in Hn, Hn'. congruence.
  - simpl in Hc, Hf, Hitem'. assert (g0 = paths item) as -> by congruence.
    assert (r' = r) as -> by congruence.
    exists r, (mark skipped item'). simpl. split_and!; try done.
    + by apply find_item_Some in Hr as [? _].
    + intros [Hid _]%list_elem_of_filter. apply Hid. unfold entry_id.
      by rewrite list_lookup_alter_eq, Hitem'.
    + by rewrite list_lookup_alter_eq, Hitem'.
Qed.

Lemma skip_resolution_witness :
  ∃ r e,
    files (run_actions (run_actions (init six_files ∅) skip_then_receive)
             [Display 1; Skip])
    = files (run_actions (init six_files ∅) skip_then_receive)
    ∧ removals (run_actions (run_actions (init six_files ∅) skip_then_receive)
                  [Display 1; Skip])
      = removals (run_actions (init six_files ∅) skip_then_receive)
    ∧ deleted_pictures_count
        (run_actions (run_actions (init six_files ∅) skip_then_receive)
           [Display 1; Skip])
      = deleted_pictures_count (run_actions (init six_files ∅) skip_then_receive)
    ∧ r ∈ all_duplicates (run_actions (init six_files ∅) skip_then_receive)
    ∧ (r ∉ all_duplicates
             (run_actions (run_actions (init six_files ∅) skip_then_receive)
                [Display 1; Skip]))
    ∧ objects (run_actions (run_actions (init six_files ∅) skip_then_receive)
                 [Display 1; Skip]) !! r = Some e
    ∧ paths e = ["b1"; "b2"] ∧ gstatus e = skipped
    ∧ current_pair_paths
        (run_actions (run_actions (init six_files ∅) skip_then_receive)
           [Display 1; Skip]) = None.
Proof.
  apply (skip_resolution
           (run_actions (init six_files ∅) skip_then_receive) 1
           {| id := 1; paths := ["b1"; "b2"]; gstatus := pending |}).
  - reflexivity.
  - discriminate.
Defined.

(** X18.  A group that is not listed.  When no entry of [all_duplicates]
    has the paths of [current_pair_paths], [confirm_selection] with a
    selected path changes nothing at all, but without a selected path it
    still gives every one of these paths to [os.remove], leaving the list
    and the entries as they are. *)
Theorem confirm_selection_unlisted a g :
  current_pair_paths a = Some g → g ≠ [] →
  find_item (objects a) (all_duplicates a) g = None →
  (∀ keep, selected_image_path a = Some keep → confirm_selection a = a)
  ∧ (selected_image_path a = None →
     ∃ new, removals (confirm_selection a) = removals a ++ new
            ∧ new.*1 = g
            ∧ (∀ q, q ∈ g → q ∉ locked a → q ∉ files (confirm_selection a))
            ∧ all_duplicates (confirm_selection a) = all_duplicates a
            ∧ objects (confirm_selection a) = objects a
            ∧ current_pair_paths (confirm_selection a) = None).
Proof.
  intros Hc Hne Hf.
  destruct (confirm_selection_cases a)
    as [[E [Hn | [Hn | (g0 & keep & Hn & Hs & Hn')]]]
       | (g0 & new & objs' & refs' & btns' & Hc' & _ & Hn & Hgone & E & Hcase)];
    try congruence.
  - split; [done |]. congruence.
  - assert (g0 = g) as -> by congruence.
    destruct Hcase as [(-> & -> & _ & Hs) | (r' & item & Hf' & _)];
      [| congruence].
    split; [congruence |]. intros _. rewrite Hs, targets_none in Hn.
    exists new. rewrite E. simpl. split_and!; try done.
    intros q Hq Hl. apply Hgone; [by rewrite Hn | done].
Qed.

Lemma confirm_selection_unlisted_witness :
  (∀ keep,
     selected_image_path
       (start_auto_delete (run_actions (init six_files ∅) skip_then_receive))
     = Some keep →
     confirm_selection
       (start_auto_delete (run_actions (init six_files ∅) skip_then_receive))
     = start_auto_delete (run_actions (init six_files ∅) skip_then_receive))
  ∧ (selected_image_path
       (start_auto_delete (run_actions (init six_files ∅) skip_then_receive))
     = None →
     ∃ new,
       removals (confirm_selection
                   (start_auto_delete
                      (run_actions (init six_files ∅) skip_then_receive)))
       = removals (start_auto_delete
                     (run_actions (init six_files ∅) skip_then_receive)) ++ new
       ∧ new.*1 = ["c1"; "c2"]
       ∧ (∀ q, q ∈ ["c1"; "c2"] →
               q ∉ locked (start_auto_delete
                             (run_actions (init six_files ∅) skip_then_receive)) →
               q ∉ files (confirm_selection
                            (start_auto_delete
                               (run_actions (init six_files ∅) skip_then_receive))))
       ∧ all_duplicates
           (confirm_selection
              (start_auto_delete (run_actions (init six_files ∅) skip_then_receive)))
         = all_duplicates
             (start_auto_delete (run_actions (init six_files ∅) skip_then_receive))
       ∧ objects
           (confirm_selection
              (start_auto_delete (run_actions (init six_files ∅) skip_then_receive)))
         = objects
             (start_auto_delete (run_actions (init six_files ∅) skip_then_receive))
       ∧ current_pair_paths
           (confirm_selection
              (start_auto_delete (run_actions (init six_files ∅) skip_then_receive)))
         = None).
Proof.
  apply (confirm_selection_unlisted
           (start_auto_delete (run_actions (init six_files ∅) skip_then_receive))
           ["c1"; "c2"]).
  - reflexivity.
  - discriminate.
  - reflexivity.
Defined.

(** X19.  [process_queue] handles the messages in order up to the first
    [done] and leaves what follows it on the queue; a queue without [done]
    is emptied. *)
Theorem process_queue_stops_at_done queue rest a :
  done ∉ queue →
  process_queue (queue ++ done :: rest) a
  = (foldl (λ a m, on_message m a) a queue, rest)
  ∧ process_queue queue a = (foldl (λ a m, on_message m a) a queue, []).
Proof.
  revert a. induction queue as [| m queue IH]; intros a Hd; [done |].
  apply not_elem_of_cons in Hd as [Hm Hd].
  destruct (IH (on_message m a) Hd) as [IH1 IH2].
  destruct m; [| | done]; simpl; by rewrite ?IH1, ?IH2.
Qed.

Lemma process_queue_stops_at_done_witness :
  process_queue ([status Phase1; duplicate_group ["b1"; "b2"]] ++ done :: [done])
    (init six_files ∅)
  = (foldl (λ a m, on_message m a) (init six_files ∅)
       [status Phase1; duplicate_group ["b1"; "b2"]], [done])
  ∧ process_queue [status Phase1; duplicate_group ["b1"; "b2"]] (init six_files ∅)
    = (foldl (λ a m, on_message m a) (init six_files ∅)
         [status Phase1; duplicate_group ["b1"; "b2"]], []).
Proof.
  apply (process_queue_stops_at_done
           [status Phase1; duplicate_group ["b1"; "b2"]] [done] (init six_files ∅)).
  intros H. not_in_literal H.
Defined.

Lemma on_message_auto a m :
  auto_delete_active a = true → all_duplicates a = [] →
  auto_delete_active (on_message m a) = true
  ∧ all_duplicates (on_message m a) = []
  ∧ ∃ new, removals (on_message m a) = removals a ++ new
           ∧ new.*1 = (received [Receive m] ≫= λ g, targets (head g) g).
Proof.
  intros Hauto Hrefs. unfold received. csimpl.
  destruct m as [text | g |]; simpl;
    [split_and!; [done | done |]; exists []; by rewrite app_nil_r |
     | split_and!; [done | done |]; exists []; by rewrite app_nil_r].
  destruct (decide (1 < length g)) as [Hlen | Hlen];
    [| split_and!; [done | done |]; exists []; by rewrite app_nil_r].
  rewrite Hauto, Hrefs. csimpl. rewrite !app_nil_r.
  set (a1 := with_selection (head g) (Some g) _).
  assert (Hf : find_item (objects a1) (all_duplicates a1) g = Some (length (objects a))).
  { simpl. rewrite list_lookup_middle by done. simpl. by rewrite decide_True. }
  assert (Hne : g ≠ []) by (intros ->; simpl in Hlen; lia).
  destruct (resolution_effect a1 g _ eq_refl Hne Hf)
    as (new & e' & H1 & H2 & _ & _ & _ & _ & H7 & _ & _ & _ & _ & _ & Hau & Hsub).
  split_and!.
  - by rewrite Hau.
  - apply elem_of_nil_inv. intros r' Hr'. pose proof (Hsub r' Hr') as Hin.
    simpl in Hin. apply list_elem_of_singleton in Hin as ->. done.
  - exists new. split; [exact H1 | exact H2].
Qed.

(** X20.  Auto-delete drains as it goes.  Once auto-delete is on and the
    list is empty, it stays empty whatever messages arrive: each received
    group of at least two paths is resolved on arrival, the calls to
    [os.remove] being, group after group, the paths of the group other
    than its first one. *)
Theorem auto_delete_keeps_list_empty a msgs :
  auto_delete_active a = true → all_duplicates a = [] →
  all_duplicates (run_actions a (Receive <$> msgs)) = []
  ∧ auto_delete_active (run_actions a (Receive <$> msgs)) = true
  ∧ ∃ new, removals (run_actions a (Receive <$> msgs)) = removals a ++ new
           ∧ new.*1 = (received (Receive <$> msgs) ≫= λ g, targets (head g) g).
Proof.
  unfold run_actions. revert a.
  induction msgs as [| m msgs IH]; intros a Hauto Hrefs.
  - split_and!; [done | done |]. exists []. by rewrite app_nil_r.
  - rewrite fmap_cons. cbn [foldl step].
    destruct (on_message_auto a m Hauto Hrefs) as (Hau & Hre & new1 & E1 & N1).
    destruct (IH _ Hau Hre) as (Hre' & Hau' & new2 & E2 & N2).
    split_and!; [done | done |]. exists (new1 ++ new2).
    rewrite E2, E1, <- app_assoc, fmap_app, N1, N2.
    split; [done |].
    rewrite (received_cons (Receive m) (Receive <$> msgs)). by rewrite bind_app.
Qed.

Lemma auto_delete_keeps_list_empty_witness :
  all_duplicates
    (run_actions (start_auto_delete (init six_files ∅))
       (Receive <$> [duplicate_group ["a1"; "a2"]; duplicate_group ["b1"; "b2"]]))
  = []
  ∧ auto_delete_active
      (run_actions (start_auto_delete (init six_files ∅))
         (Receive <$> [duplicate_group ["a1"; "a2"]; duplicate_group ["b1"; "b2"]]))
    = true
  ∧ ∃ new,
      removals
        (run_actions (start_auto_delete (init six_files ∅))
           (Receive <$> [duplicate_group ["a1"; "a2"]; duplicate_group ["b1"; "b2"]]))
      = removals (start_auto_delete (init six_files ∅)) ++ new
      ∧ new.*1
        = (received (Receive <$> [duplicate_group ["a1"; "a2"];
                                  duplicate_group ["b1"; "b2"]])
           ≫= λ g, targets (head g) g).
Proof.
  apply (auto_delete_keeps_list_empty (start_auto_delete (init six_files ∅))
           [duplicate_group ["a1"; "a2"]; duplicate_group ["b1"; "b2"]]).
  - reflexivity.
  - reflexivity.
Defined.

Lemma find_item_self (objs : list entry) (refs : list nat) r item :
  NoDup ((λ r, paths <$> objs !! r) <$> refs) →
  r ∈ refs → objs !! r = Some item →
  find_item objs refs (paths item) = Some r.
Proof.
  induction refs as [| r0 refs IH]; csimpl; [by intros _ ?%elem_of_nil |].
  intros [Hnotin HN]%NoDup_cons [-> | Hin]%elem_of_cons Hitem.
  - rewrite Hitem. by rewrite decide_True.
  - destruct (objs !! r0) as [item0 |] eqn:E0; [| by apply IH].
    case_decide as Heq; [| by apply IH].
    destruct Hnotin. simpl. rewrite Heq.
    apply list_elem_of_fmap. exists r. by rewrite Hitem.
Qed.

(** [confirm_selection] only takes entries off the list. *)
Lemma confirm_selection_shrinks a :
  active_paths (confirm_selection a) `sublist_of` active_paths a
  ∧ ∀ r, r ∈ all_duplicates (confirm_selection a) → r ∈ all_duplicates a.
Proof.
  destruct (confirm_selection_cases a)
    as [[-> _] | (g & new & objs' & refs' & btns' & _ & _ & _ & _ & -> & Hcase)];
    [done |].
  unfold active_paths. simpl.
  destruct Hcase as [(-> & -> & _) | (r & item & _ & _ & _ & -> & ->)]; [done |].
  split.
  - etrans; [apply fmap_sublist, sublist_filter |].
    assert (Hext : ∀ r0 : nat,
              paths <$> alter (mark (match selected_image_path a with
                                     | Some _ => kept_one
                                     | None => all_deleted
                                     end)) r (objects a) !! r0
              = paths <$> objects a !! r0).
    { intros r0. rewrite <- !list_lookup_fmap. by rewrite group_lists_mark. }
    by rewrite (list_fmap_ext _ _ (all_duplicates a) (λ _ _ _, Hext _)).
  - by intros r0 [_ ?]%list_elem_of_filter.
Qed.

(** The loop of [start_auto_delete] empties the list, as long as what is
    left of the list is among the references still to be visited. *)
Lemma auto_delete_loop_empties fs0 snapshot a :
  app_ok fs0 a → NoDup (active_paths a) →
  (∀ r, r ∈ all_duplicates a → r ∈ snapshot) →
  all_duplicates (auto_delete_loop snapshot a) = [].
Proof.
  revert a. induction snapshot as [| r rest IH]; intros a Ha HN Hsub; simpl.
  - apply elem_of_nil_inv. intros r Hr. by apply Hsub, elem_of_nil in Hr.
  - assert (Hskip : r ∉ all_duplicates a →
                    all_duplicates (auto_delete_loop rest a) = []).
    { intros Hr. apply IH; [done | done |]. intros r' Hr'.
      pose proof (Hsub r' Hr') as Hs.
      apply elem_of_cons in Hs as [-> | ?]; done. }
    destruct (objects a !! r) as [item |] eqn:Hitem.
    2:{ apply Hskip. intros (e & He & _)%(ok_pending _ _ Ha). congruence. }
    destruct (gstatus item) eqn:Hst;
      try (apply Hskip; intros (e & He & Hpe)%(ok_pending _ _ Ha); congruence).
    assert (Hsize : 1 < length (paths item)).
    { apply (ok_sizes _ _ Ha), list_elem_of_fmap. exists item.
      split; [done |]. by eapply list_elem_of_lookup_2. }
    destruct (paths item) as [| first others] eqn:Hp; [simpl in Hsize; lia |].
    set (a1 := with_selection (Some first) (Some (first :: others)) a).
    assert (Ha1 : app_ok fs0 a1).
    { apply with_selection_ok; [done |]. intros g [= <-]. rewrite <- Hp.
      apply list_elem_of_fmap. exists item. split; [done |].
      by eapply list_elem_of_lookup_2. }
    destruct (confirm_selection_shrinks a1) as [Hsl Hin].
    apply IH.
    + by apply confirm_selection_ok.
    + eapply sublist_NoDup; [exact HN | exact Hsl].
    + intros r0 Hr0. pose proof (Hsub r0 (Hin r0 Hr0)) as Hs.
      apply elem_of_cons in Hs as [-> | ?]; [| done].
      assert (Hf : find_item (objects a1) (all_duplicates a1) (first :: others)
                   = Some r).
      { rewrite <- Hp. apply find_item_self; [done | by apply Hin | done]. }
      destruct (resolution_effect a1 (first :: others) r eq_refl ltac:(done) Hf)
        as (new & e & _ & _ & _ & _ & _ & _ & Hgone & _).
      done.
Qed.

(** X21.  Start Auto-Delete empties the list.  After any sequence of
    actions that leaves listed entries with pairwise different path
    lists, turning auto-delete on leaves nothing in [all_duplicates] and
    switches the mode on. *)
Theorem start_auto_delete_empties_list fs0 lk acts :
  NoDup (active_paths (run_actions (init fs0 lk) acts)) →
  all_duplicates (start_auto_delete (run_actions (init fs0 lk) acts)) = []
  ∧ auto_delete_active (start_auto_delete (run_actions (init fs0 lk) acts)) = true.
Proof.
  intros HN. destruct (run_from_init_ok fs0 lk acts) as [Hok _].
  unfold start_auto_delete.
  set (a := run_actions (init fs0 lk) acts) in *.
  assert (Hok' : app_ok fs0 (with_auto true a)).
  { destruct Hok as [H1 H2 H3 H4 H5 H6 H7]. by split. }
  split.
  - by apply (auto_delete_loop_empties fs0).
  - by destruct (auto_delete_loop_ok fs0 (all_duplicates (with_auto true a))
                   (with_auto true a) Hok') as (_ & _ & ->).
Qed.

Lemma start_auto_delete_empties_list_witness :
  all_duplicates
    (start_auto_delete (run_actions (init six_files ∅) skip_then_receive)) = []
  ∧ auto_delete_active
      (start_auto_delete (run_actions (init six_files ∅) skip_then_receive)) = true.
Proof.
  apply (start_auto_delete_empties_list six_files ∅ skip_then_receive).
  apply (bool_decide_unpack _). by vm_compute.
Defined.

End AppMore.
